(** * Keystone timer driver (src/timer.c): shallow embedding and properties

    The driver programs a memory-mapped timer block through a
    [volatile struct keystone_timer_map *].  The embedding keeps the two
    static pools of the file ([timers], [kts]), the device memory the
    handles point into, and records every volatile access and every
    barrier in a trace, so that both the register contents and the order
    of the accesses can be stated. *)

From stdpp Require Import base option list gmap.
From Stdlib Require Import ZArith Lia.

Local Open Scope Z_scope.

(** ** Machine integers *)

(** Conversion to [uint32_t] / [uint64_t]: reduction modulo the width. *)
Definition to_u32 (v : Z) : Z := v mod 2 ^ 32.
Definition to_u64 (v : Z) : Z := v mod 2 ^ 64.

(** ** Constants of the file *)

Definition TCR_ENAMODE_MASK : Z := 0xC0.
Definition TCR_ENAMODE_ONESHOT_MASK : Z := 0x40.
Definition TCR_ENAMODE_PERIODIC_MASK : Z := 0x80.

Definition TGCR_TIM_UNRESET_MASK : Z := 0x03.
Definition INTCTLSTAT_ENINT_MASK : Z := 0x01.
Definition INTCTLSTAT_ACK_MASK : Z := 0x03.

Definition TICKS_PER_SECOND : Z := 204800000.

(** [TIMER_INTERVAL_TICKS(ns)]:
    [((uint32_t)(1ULL * (ns) * TICKS_PER_SECOND / 1000 / 1000 / 1000))].
    Both products are [unsigned long long] products and wrap at 2^64; the
    three divisions are unsigned; the cast keeps the low 32 bits. *)
Definition TIMER_INTERVAL_TICKS (ns : Z) : Z :=
  to_u32 (to_u64 (to_u64 (1 * ns) * TICKS_PER_SECOND) / 1000 / 1000 / 1000).

(** Modelled from the spec: [EINVAL] comes from the C library's errno
    header, which is not part of the sources; it is the spec's
    [InvalidArgument] result.  Only its being non-zero matters. *)
Definition EINVAL : Z := 22.

(** ** The register block *)

(** The [uint32_t] members of [struct keystone_timer_map].  The [char]
    padding arrays are never accessed and are left out. *)
Record keystone_timer_map : Type := Build_map {
  emumgt_clkspd : Z;
  cntlo : Z;
  cnthi : Z;
  prdlo : Z;
  prdhi : Z;
  tcr : Z;
  tgcr : Z;
  wdtcr : Z;
  rello : Z;
  relhi : Z;
  caplo : Z;
  caphi : Z;
  intctlstat : Z
}.

(** Names of the members, used to address one register of a block. *)
Inductive reg : Type :=
| EMUMGT_CLKSPD | CNTLO | CNTHI | PRDLO | PRDHI | TCR | TGCR | WDTCR
| RELLO | RELHI | CAPLO | CAPHI | INTCTLSTAT.

#[global] Instance reg_eq_dec : EqDecision reg.
Proof. solve_decision. Defined.

Definition get_reg (r : reg) (m : keystone_timer_map) : Z :=
  match r with
  | EMUMGT_CLKSPD => emumgt_clkspd m
  | CNTLO => cntlo m
  | CNTHI => cnthi m
  | PRDLO => prdlo m
  | PRDHI => prdhi m
  | TCR => tcr m
  | TGCR => tgcr m
  | WDTCR => wdtcr m
  | RELLO => rello m
  | RELHI => relhi m
  | CAPLO => caplo m
  | CAPHI => caphi m
  | INTCTLSTAT => intctlstat m
  end.

Definition set_reg (r : reg) (v : Z) (m : keystone_timer_map) : keystone_timer_map :=
  let '(Build_map a0 a1 a2 a3 a4 a5 a6 a7 a8 a9 a10 a11 a12) := m in
  match r with
  | EMUMGT_CLKSPD => Build_map v a1 a2 a3 a4 a5 a6 a7 a8 a9 a10 a11 a12
  | CNTLO => Build_map a0 v a2 a3 a4 a5 a6 a7 a8 a9 a10 a11 a12
  | CNTHI => Build_map a0 a1 v a3 a4 a5 a6 a7 a8 a9 a10 a11 a12
  | PRDLO => Build_map a0 a1 a2 v a4 a5 a6 a7 a8 a9 a10 a11 a12
  | PRDHI => Build_map a0 a1 a2 a3 v a5 a6 a7 a8 a9 a10 a11 a12
  | TCR => Build_map a0 a1 a2 a3 a4 v a6 a7 a8 a9 a10 a11 a12
  | TGCR => Build_map a0 a1 a2 a3 a4 a5 v a7 a8 a9 a10 a11 a12
  | WDTCR => Build_map a0 a1 a2 a3 a4 a5 a6 v a8 a9 a10 a11 a12
  | RELLO => Build_map a0 a1 a2 a3 a4 a5 a6 a7 v a9 a10 a11 a12
  | RELHI => Build_map a0 a1 a2 a3 a4 a5 a6 a7 a8 v a10 a11 a12
  | CAPLO => Build_map a0 a1 a2 a3 a4 a5 a6 a7 a8 a9 v a11 a12
  | CAPHI => Build_map a0 a1 a2 a3 a4 a5 a6 a7 a8 a9 a10 v a12
  | INTCTLSTAT => Build_map a0 a1 a2 a3 a4 a5 a6 a7 a8 a9 a10 a11 v
  end.

(** ** Driver state *)

(** [keystone_timer_t]: [hw] is the address of the register block. *)
Record keystone_timer_t : Type := Build_kt {
  hw : Z;
  irq : Z
}.

(** The functions a [pstimer_t] slot can point to; [fn_NULL] is the value
    of a slot of the zero-initialised pool. *)
Inductive timer_fn : Type :=
| fn_NULL
| fn_keystone_timer_start
| fn_keystone_timer_stop
| fn_keystone_get_time
| fn_stub_timer_timeout
| fn_keystone_oneshot_relative
| fn_keystone_periodic
| fn_keystone_handle_irq
| fn_keystone_get_nth_irq.

(** Modelled from the spec: the capability descriptor inside [pstimer_t],
    declared in platsupport/timer.h, which is not part of the sources; the
    members are the ones [ps_get_timer] assigns. *)
Record timer_properties : Type := Build_properties {
  upcounter : bool;
  timeouts : bool;
  relative_timeouts : bool;
  periodic_timeouts : bool;
  absolute_timeouts : bool;
  bit_width : Z;
  irqs : Z
}.

(** Modelled from the spec: [pstimer_t], declared in platsupport/timer.h,
    which is not part of the sources; the members are the ones
    [ps_get_timer] assigns.  [data] is the [void *] that the driver uses
    for a pointer into [kts]: [None] is the null pointer, [Some i] is
    [&kts[i]]. *)
Record pstimer_t : Type := Build_pstimer {
  properties : timer_properties;
  data : option nat;
  start : timer_fn;
  stop : timer_fn;
  get_time : timer_fn;
  oneshot_absolute : timer_fn;
  oneshot_relative : timer_fn;
  periodic : timer_fn;
  handle_irq : timer_fn;
  get_nth_irq : timer_fn
}.

(** Modelled from the spec: [timer_config_t], declared in
    platsupport/plat/timer.h, which is not part of the sources: the mapped
    base address and the interrupt line number. *)
Record timer_config_t : Type := Build_config {
  vaddr : Z;
  cfg_irq : Z
}.

(** The state the driver works on: the two static pools and the device
    memory, a finite map from base addresses to register blocks.  An
    address outside the map is not mapped; an access to it faults. *)
Record world : Type := Build_world {
  timers : list pstimer_t;
  kts : list keystone_timer_t;
  mem : gmap Z keystone_timer_map
}.

Definition with_timers (l : list pstimer_t) (w : world) : world :=
  {| timers := l; kts := kts w; mem := mem w |}.
Definition with_kts (l : list keystone_timer_t) (w : world) : world :=
  {| timers := timers w; kts := l; mem := mem w |}.
Definition with_mem (h : gmap Z keystone_timer_map) (w : world) : world :=
  {| timers := timers w; kts := kts w; mem := h |}.

(** The value of a static object before any code ran. *)
Definition zero_properties : timer_properties :=
  {| upcounter := false; timeouts := false; relative_timeouts := false;
     periodic_timeouts := false; absolute_timeouts := false;
     bit_width := 0; irqs := 0 |}.
Definition zero_pstimer : pstimer_t :=
  {| properties := zero_properties; data := None;
     start := fn_NULL; stop := fn_NULL; get_time := fn_NULL;
     oneshot_absolute := fn_NULL; oneshot_relative := fn_NULL;
     periodic := fn_NULL; handle_irq := fn_NULL; get_nth_irq := fn_NULL |}.
Definition zero_kt : keystone_timer_t := {| hw := 0; irq := 0 |}.

(** ** Observable accesses *)

(** One entry per volatile access to a register block and per [dmb()]. *)
Inductive event : Type :=
| Read (a : Z) (r : reg) (v : Z)
| Write (a : Z) (r : reg) (v : Z)
| Dmb.

#[global] Instance event_eq_dec : EqDecision event.
Proof. solve_decision. Defined.

(** ** The monad of driver code

    A computation takes the state and either faults ([None]: a null or
    unmapped pointer was dereferenced, or a pool was indexed outside its
    bounds) or returns its result, the new state and the accesses it
    made, in program order. *)
Definition M (A : Type) : Type := world → option (A * world * list event).

#[global] Instance M_ret : MRet M := λ A a w, Some (a, w, []).
#[global] Instance M_bind : MBind M := λ A B f m w,
  match m w with
  | None => None
  | Some (a, w1, t1) =>
      match f a w1 with
      | None => None
      | Some (b, w2, t2) => Some (b, w2, t1 ++ t2)
      end
  end.

Definition fault {A : Type} : M A := λ _, None.

(** [*(keystone_timer_t * )timer->data]: the pool index the handle's
    [data] member points to. *)
Definition timer_data (timer : option nat) : M nat := λ w,
  match timer with
  | None => None
  | Some i =>
      match timers w !! i with
      | None => None
      | Some t =>
          match data t with
          | None => None
          | Some kt => Some (kt, w, [])
          end
      end
  end.

(** [kt->irq] *)
Definition kt_irq (kt : nat) : M Z := λ w,
  match kts w !! kt with
  | None => None
  | Some k => Some (irq k, w, [])
  end.

(** [kt->hw->r] as an rvalue: a volatile load. *)
Definition hw_load (kt : nat) (r : reg) : M Z := λ w,
  match kts w !! kt with
  | None => None
  | Some k =>
      match mem w !! hw k with
      | None => None
      | Some m => Some (get_reg r m, w, [Read (hw k) r (get_reg r m)])
      end
  end.

(** [kt->hw->r = v]: a volatile store; the value is converted to the
    member's type [uint32_t]. *)
Definition hw_store (kt : nat) (r : reg) (v : Z) : M unit := λ w,
  match kts w !! kt with
  | None => None
  | Some k =>
      match mem w !! hw k with
      | None => None
      | Some m =>
          Some (tt, with_mem (<[hw k := set_reg r (to_u32 v) m]> (mem w)) w,
                [Write (hw k) r (to_u32 v)])
      end
  end.

(** [dmb()] *)
Definition dmb : M unit := λ w, Some (tt, w, [Dmb]).

(** ** The driver functions *)

Definition keystone_timer_reset (timer : option nat) : M unit :=
  kt ← timer_data timer;
  (* disable, use internal clock source *)
  hw_store kt TCR 0;;
  dmb;;
  (* reset timer as 64-bit, no pre-scaler, plus features are disabled *)
  hw_store kt TGCR 0;;
  (* unreset timer *)
  hw_store kt TGCR TGCR_TIM_UNRESET_MASK;;
  (* init counter to zero *)
  hw_store kt CNTLO 0;;
  hw_store kt CNTHI 0;;
  (* enable timer interrupts *)
  hw_store kt INTCTLSTAT INTCTLSTAT_ENINT_MASK.

Definition keystone_timer_stop (timer : option nat) : M Z :=
  kt ← timer_data timer;
  v ← hw_load kt TCR;
  hw_store kt TCR (Z.land v (to_u32 (Z.lnot TCR_ENAMODE_MASK)));;
  mret 0.

Definition keystone_timer_start (timer : option nat) : M Z :=
  kt ← timer_data timer;
  v ← hw_load kt TCR;
  hw_store kt TCR (Z.lor v (to_u32 TCR_ENAMODE_MASK));;
  mret 0.

Definition keystone_set_timeo (timer : option nat) (ns : Z) (tcrFlags : Z) : M Z :=
  kt ← timer_data timer;
  let ticks := TIMER_INTERVAL_TICKS ns in
  if ticks <? 2 then mret EINVAL else
  tcr ← hw_load kt TCR;
  let off := Z.land tcr (to_u32 (Z.lnot TCR_ENAMODE_MASK)) in
  (* set enable mode *)
  let tcr := Z.lor tcr (to_u32 tcrFlags) in
  (* disable timer *)
  hw_store kt TCR off;;
  (* here we have to be sure the timer has been disabled *)
  dmb;;
  (* reset counter to zero, set new period *)
  hw_store kt CNTLO 0;;
  hw_store kt CNTHI 0;;
  hw_store kt PRDLO (Z.land ticks 0xffffffff);;
  hw_store kt PRDHI (Z.shiftr ticks 32);;
  (* clear interrupt status bit *)
  hw_store kt INTCTLSTAT INTCTLSTAT_ACK_MASK;;
  (* enable timer *)
  dmb;;
  hw_store kt TCR tcr;;
  mret 0.

Definition keystone_periodic (timer : option nat) (ns : Z) : M Z :=
  keystone_set_timeo timer ns TCR_ENAMODE_PERIODIC_MASK.

Definition keystone_oneshot_relative (timer : option nat) (ns : Z) : M Z :=
  keystone_set_timeo timer ns TCR_ENAMODE_ONESHOT_MASK.

Definition keystone_get_time (timer : option nat) : M Z :=
  kt ← timer_data timer;
  hw_load kt CNTLO.

Definition keystone_handle_irq (timer : option nat) (irq : Z) : M unit :=
  kt ← timer_data timer;
  hw_store kt INTCTLSTAT INTCTLSTAT_ACK_MASK.

Definition keystone_get_nth_irq (timer : option nat) (n : Z) : M Z :=
  kt ← timer_data timer;
  kt_irq kt.


(** ** The factory and its pools *)

Section pool.

(** [NTIMERS] comes from platsupport/plat/timer.h, which is not part of
    the sources; it is the length of both pools. *)
Variable NTIMERS : nat.

(** The state at process start, over a given device memory. *)
Definition init_world (h : gmap Z keystone_timer_map) : world :=
  {| timers := replicate NTIMERS zero_pstimer;
     kts := replicate NTIMERS zero_kt;
     mem := h |}.

(** Assignment to the members of [timers[i]] and of [kts[i]]. *)
Definition store_timer (i : nat) (t : pstimer_t) : M unit := λ w,
  if decide (i < length (timers w))%nat
  then Some (tt, with_timers (<[i := t]> (timers w)) w, [])
  else None.

Definition store_kt (i : nat) (k : keystone_timer_t) : M unit := λ w,
  if decide (i < length (kts w))%nat
  then Some (tt, with_kts (<[i := k]> (kts w)) w, [])
  else None.

(** [*config] *)
Definition load_config (config : option timer_config_t) : M timer_config_t :=
  match config with
  | None => fault
  | Some c => mret c
  end.

Definition ps_get_timer (id : nat) (config : option timer_config_t) : M (option nat) :=
  if decide (NTIMERS ≤ id)%nat then mret None else
  let timer := id in
  let kt := id in
  store_timer timer
    {| properties :=
         {| upcounter := false;
            timeouts := true;
            relative_timeouts := true;
            periodic_timeouts := true;
            absolute_timeouts := false;
            bit_width := 32;
            irqs := 1 |};
       data := Some kt;
       start := fn_keystone_timer_start;
       stop := fn_keystone_timer_stop;
       get_time := fn_keystone_get_time;
       oneshot_absolute := fn_stub_timer_timeout;
       oneshot_relative := fn_keystone_oneshot_relative;
       periodic := fn_keystone_periodic;
       handle_irq := fn_keystone_handle_irq;
       get_nth_irq := fn_keystone_get_nth_irq |};;
  c ← load_config config;
  store_kt kt {| hw := vaddr c; irq := to_u32 (cfg_irq c) |};;
  keystone_timer_reset (Some timer);;
  mret (Some timer).

End pool.

(** ** Vocabulary of the properties *)

(** The exact quotient the conversion is meant to compute, over unbounded
    integers (the wide reference of the specification). *)
Definition ticks_reference (ns : Z) : Z :=
  ns * TICKS_PER_SECOND / 1000000000.

(** [dev w a m]: the state [w] with the block at address [a] holding [m]. *)
Definition dev (w : world) (a : Z) (m : keystone_timer_map) : world :=
  with_mem (<[a := m]> (mem w)) w.

(** A handle that points, through [data] and [hw], at a mapped block:
    [k] is the [keystone_timer_t] behind the handle and [m] the contents
    of its register block. *)
Definition handle_ok (w : world) (timer : nat) (k : keystone_timer_t)
    (m : keystone_timer_map) : Prop :=
  ∃ t kt, timers w !! timer = Some t ∧ data t = Some kt ∧
          kts w !! kt = Some k ∧ mem w !! hw k = Some m.

(** The contents [ps_get_timer] gives to the slot [timers[id]] whose
    [data] is [&kts[kt]]. *)
Definition bound_pstimer (kt : nat) : pstimer_t :=
  {| properties :=
       {| upcounter := false; timeouts := true; relative_timeouts := true;
          periodic_timeouts := true; absolute_timeouts := false;
          bit_width := 32; irqs := 1 |};
     data := Some kt;
     start := fn_keystone_timer_start;
     stop := fn_keystone_timer_stop;
     get_time := fn_keystone_get_time;
     oneshot_absolute := fn_stub_timer_timeout;
     oneshot_relative := fn_keystone_oneshot_relative;
     periodic := fn_keystone_periodic;
     handle_irq := fn_keystone_handle_irq;
     get_nth_irq := fn_keystone_get_nth_irq |}.

(** Kinds of accesses in a trace. *)
Definition tcr_disable (e : event) : bool :=
  match e with
  | Write _ TCR v => Z.land v TCR_ENAMODE_MASK =? 0
  | _ => false
  end.

Definition tcr_enable (e : event) : bool :=
  match e with
  | Write _ TCR v => negb (Z.land v TCR_ENAMODE_MASK =? 0)
  | _ => false
  end.

Definition period_write (e : event) : bool :=
  match e with
  | Write _ PRDLO _ | Write _ PRDHI _ => true
  | _ => false
  end.

Definition ack_write (e : event) : bool :=
  match e with
  | Write _ INTCTLSTAT v => v =? INTCTLSTAT_ACK_MASK
  | _ => false
  end.

Definition is_write (e : event) : bool :=
  match e with
  | Write _ _ _ => true
  | _ => false
  end.

(** Every [Q] access of the trace has a [P] access somewhere before it. *)
Definition preceded_by (P Q : event → bool) (tr : list event) : Prop :=
  ∀ i e, tr !! i = Some e → Q e = true →
    ∃ j d, (j < i)%nat ∧ tr !! j = Some d ∧ P d = true.

(** Every [Q] access of the trace comes before every [P] access. *)
Definition all_before (Q P : event → bool) (tr : list event) : Prop :=
  ∀ i j e d, tr !! i = Some e → P e = true →
    tr !! j = Some d → Q d = true → (j < i)%nat.

(** An access that concerns the block at address [a] (a barrier concerns
    every block). *)
Definition at_block (a : Z) (e : event) : bool :=
  match e with
  | Read b _ _ | Write b _ _ => bool_decide (b = a)
  | Dmb => true
  end.

(** [m'] agrees with [m] on every register outside [rs]. *)
Definition keeps (rs : list reg) (m m' : keystone_timer_map) : Prop :=
  ∀ r, r ∉ rs → get_reg r m' = get_reg r m.

(** A step from [w] to [w'] with accesses [tr] that stays within the
    block at [a]: the pools are the same, every other block is the same,
    the block at [a] stays mapped, every access of [tr] is at [a], and
    every valid handle stays valid. *)
Definition confined (w : world) (a : Z) (w' : world) (tr : list event) : Prop :=
  timers w' = timers w ∧ kts w' = kts w ∧
  (∀ b, b ≠ a → mem w' !! b = mem w !! b) ∧
  Forall (λ e, at_block a e = true) tr ∧
  (∀ t2 k2 m2, handle_ok w t2 k2 m2 → ∃ m2', handle_ok w' t2 k2 m2').

(** ** A board with one timer, for concrete runs *)

Definition base0 : Z := 0x02200000.
Definition cfg0 : timer_config_t := {| vaddr := base0; cfg_irq := 64 |}.
Definition quiet_map : keystone_timer_map :=
  Build_map 0 0 0 0 0 0 0 0 0 0 0 0 0.

(** The state at process start with block contents [m] at [base0]. *)
Definition fresh_world (m : keystone_timer_map) : world :=
  init_world 1 {[ base0 := m ]}.

(** The pools as [ps_get_timer 0 &cfg0] leaves them, over a device
    memory that holds [m] at [base0]. *)
Definition bound_world (m : keystone_timer_map) : world :=
  match ps_get_timer 1 0 (Some cfg0) (fresh_world quiet_map) with
  | Some (_, w, _) => with_mem {[ base0 := m ]} w
  | None => fresh_world m
  end.

(** A board with two timers: a second block and its configuration. *)
Definition base1 : Z := 0x02210000.
Definition cfg1 : timer_config_t := {| vaddr := base1; cfg_irq := 65 |}.

(** The two-timer board after [ps_get_timer 0 &cfg0], with block
    contents [m0] at [base0] and [m1] at [base1]. *)
Definition board2 (m0 m1 : keystone_timer_map) : world :=
  match ps_get_timer 2 0 (Some cfg0)
          (init_world 2 {[ base0 := quiet_map; base1 := quiet_map ]}) with
  | Some (_, w, _) => with_mem {[ base0 := m0; base1 := m1 ]} w
  | None => init_world 2 ∅
  end.

(** Obtain timer 0, arm it periodic, then arm it one-shot. *)
Definition rearm : M Z :=
  timer ← ps_get_timer 1 0 (Some cfg0);
  keystone_periodic timer 1000000;;
  keystone_oneshot_relative timer 1000000.

(** ** Running driver code *)

Lemma dev_id w a m : mem w !! a = Some m → dev w a m = w.
Proof.
  intros H. destruct w as [ts ks h]. unfold dev, with_mem. simpl in *.
  f_equal. by apply insert_id.
Qed.

Lemma dev_dev w a m m' : dev (dev w a m) a m' = dev w a m'.
Proof. unfold dev, with_mem. simpl. f_equal. apply insert_insert_eq. Qed.

Lemma handle_ok_dev w timer k m m' :
  handle_ok w timer k m → handle_ok (dev w (hw k) m') timer k m'.
Proof.
  intros (t & kt & Ht & Hd & Hk & _). exists t, kt.
  unfold dev, with_mem. simpl. by rewrite lookup_insert_eq.
Qed.

Lemma bind_run {A B} (m : M A) (f : A → M B) w :
  (m ≫= f) w =
  match m w with
  | None => None
  | Some (a, w1, t1) =>
      match f a w1 with
      | None => None
      | Some (b, w2, t2) => Some (b, w2, t1 ++ t2)
      end
  end.
Proof. reflexivity. Qed.

Lemma timer_data_dev w timer t kt a m :
  timers w !! timer = Some t → data t = Some kt →
  timer_data (Some timer) (dev w a m) = Some (kt, dev w a m, []).
Proof. intros H1 H2. unfold timer_data. simpl. by rewrite H1, H2. Qed.

Lemma kt_irq_run w kt k : kts w !! kt = Some k → kt_irq kt w = Some (irq k, w, []).
Proof. intros H. unfold kt_irq. by rewrite H. Qed.

Lemma hw_load_dev w kt k r m :
  kts w !! kt = Some k →
  hw_load kt r (dev w (hw k) m) =
    Some (get_reg r m, dev w (hw k) m, [Read (hw k) r (get_reg r m)]).
Proof. intros H. unfold hw_load. simpl. by rewrite H, lookup_insert_eq. Qed.

Lemma hw_store_dev w kt k r v m :
  kts w !! kt = Some k →
  hw_store kt r v (dev w (hw k) m) =
    Some (tt, dev w (hw k) (set_reg r (to_u32 v) m), [Write (hw k) r (to_u32 v)]).
Proof.
  intros H. unfold hw_store, dev, with_mem. simpl.
  by rewrite H, lookup_insert_eq, insert_insert_eq.
Qed.

Lemma dmb_run w : dmb w = Some (tt, w, [Dmb]).
Proof. reflexivity. Qed.

Lemma ret_run {A} (a : A) w : (mret a : M A) w = Some (a, w, []).
Proof. reflexivity. Qed.

(** Enter a driver function through a valid handle, then run its body
    access by access. *)
Ltac enter Ht Hd Hm :=
  rewrite <- (dev_id _ _ _ Hm) at 1;
  rewrite bind_run, (timer_data_dev _ _ _ _ _ _ Ht Hd); cbv beta iota zeta.

Ltac run Hk :=
  repeat (rewrite bind_run;
          rewrite ?(hw_store_dev _ _ _ _ _ _ Hk), ?(hw_load_dev _ _ _ _ _ Hk),
                  ?dmb_run, ?ret_run;
          cbv beta iota).

Lemma keystone_timer_reset_run w timer k m :
  handle_ok w timer k m →
  keystone_timer_reset (Some timer) w =
    Some (tt,
          dev w (hw k)
            (set_reg INTCTLSTAT INTCTLSTAT_ENINT_MASK
               (set_reg CNTHI 0 (set_reg CNTLO 0
                  (set_reg TGCR TGCR_TIM_UNRESET_MASK
                     (set_reg TGCR 0 (set_reg TCR 0 m)))))),
          [Write (hw k) TCR 0; Dmb; Write (hw k) TGCR 0;
           Write (hw k) TGCR TGCR_TIM_UNRESET_MASK;
           Write (hw k) CNTLO 0; Write (hw k) CNTHI 0;
           Write (hw k) INTCTLSTAT INTCTLSTAT_ENINT_MASK]).
Proof.
  intros (t & kt & Ht & Hd & Hk & Hm).
  unfold keystone_timer_reset. enter Ht Hd Hm. run Hk.
  reflexivity.
Qed.

Lemma keystone_timer_stop_run w timer k m :
  handle_ok w timer k m →
  keystone_timer_stop (Some timer) w =
    Some (0,
          dev w (hw k)
            (set_reg TCR (to_u32 (Z.land (tcr m) (to_u32 (Z.lnot TCR_ENAMODE_MASK)))) m),
          [Read (hw k) TCR (tcr m);
           Write (hw k) TCR (to_u32 (Z.land (tcr m) (to_u32 (Z.lnot TCR_ENAMODE_MASK))))]).
Proof.
  intros (t & kt & Ht & Hd & Hk & Hm).
  unfold keystone_timer_stop. enter Ht Hd Hm. run Hk.
  reflexivity.
Qed.

Lemma keystone_timer_start_run w timer k m :
  handle_ok w timer k m →
  keystone_timer_start (Some timer) w =
    Some (0,
          dev w (hw k)
            (set_reg TCR (to_u32 (Z.lor (tcr m) (to_u32 TCR_ENAMODE_MASK))) m),
          [Read (hw k) TCR (tcr m);
           Write (hw k) TCR (to_u32 (Z.lor (tcr m) (to_u32 TCR_ENAMODE_MASK)))]).
Proof.
  intros (t & kt & Ht & Hd & Hk & Hm).
  unfold keystone_timer_start. enter Ht Hd Hm. run Hk.
  reflexivity.
Qed.

Lemma keystone_set_timeo_reject w timer k m ns tcrFlags :
  handle_ok w timer k m →
  TIMER_INTERVAL_TICKS ns < 2 →
  keystone_set_timeo (Some timer) ns tcrFlags w = Some (EINVAL, w, []).
Proof.
  intros (t & kt & Ht & Hd & Hk & Hm) Hlt.
  unfold keystone_set_timeo. enter Ht Hd Hm.
  rewrite (proj2 (Z.ltb_lt _ _) Hlt), ret_run, (dev_id _ _ _ Hm).
  reflexivity.
Qed.

Lemma keystone_set_timeo_run w timer k m ns tcrFlags :
  handle_ok w timer k m →
  2 ≤ TIMER_INTERVAL_TICKS ns →
  keystone_set_timeo (Some timer) ns tcrFlags w =
    Some (0,
          dev w (hw k)
            (set_reg TCR (to_u32 (Z.lor (tcr m) (to_u32 tcrFlags)))
               (set_reg INTCTLSTAT INTCTLSTAT_ACK_MASK
                  (set_reg PRDHI (to_u32 (Z.shiftr (TIMER_INTERVAL_TICKS ns) 32))
                     (set_reg PRDLO (to_u32 (Z.land (TIMER_INTERVAL_TICKS ns) 0xffffffff))
                        (set_reg CNTHI 0 (set_reg CNTLO 0
                           (set_reg TCR
                              (to_u32 (Z.land (tcr m) (to_u32 (Z.lnot TCR_ENAMODE_MASK))))
                              m))))))),
          [Read (hw k) TCR (tcr m);
           Write (hw k) TCR (to_u32 (Z.land (tcr m) (to_u32 (Z.lnot TCR_ENAMODE_MASK))));
           Dmb;
           Write (hw k) CNTLO 0;
           Write (hw k) CNTHI 0;
           Write (hw k) PRDLO (to_u32 (Z.land (TIMER_INTERVAL_TICKS ns) 0xffffffff));
           Write (hw k) PRDHI (to_u32 (Z.shiftr (TIMER_INTERVAL_TICKS ns) 32));
           Write (hw k) INTCTLSTAT INTCTLSTAT_ACK_MASK;
           Dmb;
           Write (hw k) TCR (to_u32 (Z.lor (tcr m) (to_u32 tcrFlags)))]).
Proof.
  intros (t & kt & Ht & Hd & Hk & Hm) Hge.
  unfold keystone_set_timeo. enter Ht Hd Hm.
  rewrite (proj2 (Z.ltb_ge _ _) Hge). run Hk.
  reflexivity.
Qed.

Lemma keystone_get_time_run w timer k m :
  handle_ok w timer k m →
  keystone_get_time (Some timer) w = Some (cntlo m, w, [Read (hw k) CNTLO (cntlo m)]).
Proof.
  intros (t & kt & Ht & Hd & Hk & Hm).
  unfold keystone_get_time. enter Ht Hd Hm.
  rewrite (hw_load_dev _ _ _ _ _ Hk), (dev_id _ _ _ Hm). reflexivity.
Qed.

(** The driver's part of the acknowledge: for every state and every [irq]
    argument the only access is the store of the acknowledge pattern. *)
Lemma keystone_handle_irq_run w timer k m irq :
  handle_ok w timer k m →
  keystone_handle_irq (Some timer) irq w =
    Some (tt, dev w (hw k) (set_reg INTCTLSTAT INTCTLSTAT_ACK_MASK m),
          [Write (hw k) INTCTLSTAT INTCTLSTAT_ACK_MASK]).
Proof.
  intros (t & kt & Ht & Hd & Hk & Hm).
  unfold keystone_handle_irq. enter Ht Hd Hm.
  rewrite (hw_store_dev _ _ _ _ _ _ Hk). reflexivity.
Qed.

Lemma keystone_get_nth_irq_run w timer k m n :
  handle_ok w timer k m →
  keystone_get_nth_irq (Some timer) n w = Some (irq k, w, []).
Proof.
  intros (t & kt & Ht & Hd & Hk & Hm).
  unfold keystone_get_nth_irq, timer_data. rewrite bind_run, Ht, Hd.
  by rewrite (kt_irq_run _ _ _ Hk).
Qed.

Lemma ps_get_timer_reject NTIMERS id config w :
  (NTIMERS ≤ id)%nat → ps_get_timer NTIMERS id config w = Some (None, w, []).
Proof.
  intros H. unfold ps_get_timer. destruct (decide (NTIMERS ≤ id)%nat); [|lia].
  reflexivity.
Qed.

Lemma ps_get_timer_run NTIMERS w id c m :
  (id < NTIMERS)%nat →
  length (timers w) = NTIMERS → length (kts w) = NTIMERS →
  mem w !! vaddr c = Some m →
  ps_get_timer NTIMERS id (Some c) w =
    Some (Some id,
          dev (with_kts (<[id := {| hw := vaddr c; irq := to_u32 (cfg_irq c) |}]> (kts w))
                 (with_timers (<[id := bound_pstimer id]> (timers w)) w))
              (vaddr c)
              (set_reg INTCTLSTAT INTCTLSTAT_ENINT_MASK
                 (set_reg CNTHI 0 (set_reg CNTLO 0
                    (set_reg TGCR TGCR_TIM_UNRESET_MASK
                       (set_reg TGCR 0 (set_reg TCR 0 m)))))),
          [Write (vaddr c) TCR 0; Dmb; Write (vaddr c) TGCR 0;
           Write (vaddr c) TGCR TGCR_TIM_UNRESET_MASK;
           Write (vaddr c) CNTLO 0; Write (vaddr c) CNTHI 0;
           Write (vaddr c) INTCTLSTAT INTCTLSTAT_ENINT_MASK]).
Proof.
  intros Hid Hts Hks Hm. unfold ps_get_timer.
  destruct (decide (NTIMERS ≤ id)%nat); [lia|].
  rewrite bind_run. unfold store_timer at 1.
  destruct (decide (id < length (timers w))%nat); [|lia].
  rewrite bind_run. simpl load_config. rewrite ret_run.
  rewrite bind_run. unfold store_kt at 1. simpl kts.
  destruct (decide (id < length (kts w))%nat); [|lia].
  rewrite bind_run.
  rewrite (keystone_timer_reset_run _ id
             {| hw := vaddr c; irq := to_u32 (cfg_irq c) |} m).
  - reflexivity.
  - exists (bound_pstimer id), id. simpl.
    rewrite !list_lookup_insert_eq by lia. done.
Qed.

(** ** Bits of 32-bit values *)

Lemma to_u32_ones x : to_u32 x = Z.land x (Z.ones 32).
Proof. unfold to_u32. by rewrite Z.land_ones. Qed.

Lemma to_u32_range x : 0 ≤ to_u32 x < 2 ^ 32.
Proof. unfold to_u32. apply Z.mod_pos_bound. lia. Qed.

Lemma to_u32_small x : 0 ≤ x < 2 ^ 32 → to_u32 x = x.
Proof. intros H. unfold to_u32. by apply Z.mod_small. Qed.

Lemma to_u32_idem x : to_u32 (to_u32 x) = to_u32 x.
Proof. apply to_u32_small, to_u32_range. Qed.

Lemma to_u32_lor x y : to_u32 (Z.lor x y) = Z.lor (to_u32 x) (to_u32 y).
Proof. rewrite !to_u32_ones. apply Z.land_lor_distr_l. Qed.

Lemma to_u32_land_r x y : to_u32 (Z.land x y) = Z.land x (to_u32 y).
Proof. rewrite !to_u32_ones. by rewrite Z.land_assoc. Qed.

Lemma to_u32_land_l x y : to_u32 (Z.land x y) = Z.land (to_u32 x) y.
Proof. rewrite (Z.land_comm x y), to_u32_land_r. apply Z.land_comm. Qed.

(** The value [stop] and [set_timeo] store to disable the timer has both
    enable-mode bits clear. *)
Lemma off_value_disabled t :
  Z.land (to_u32 (Z.land t (to_u32 (Z.lnot TCR_ENAMODE_MASK)))) TCR_ENAMODE_MASK = 0.
Proof.
  rewrite <- to_u32_land_l, <- Z.land_assoc, to_u32_land_r.
  change (Z.land (to_u32 (Z.lnot TCR_ENAMODE_MASK)) TCR_ENAMODE_MASK) with 0.
  rewrite Z.land_0_r. reflexivity.
Qed.

Lemma off_value_idem t :
  to_u32 (Z.land (to_u32 (Z.land t (to_u32 (Z.lnot TCR_ENAMODE_MASK))))
                 (to_u32 (Z.lnot TCR_ENAMODE_MASK))) =
  to_u32 (Z.land t (to_u32 (Z.lnot TCR_ENAMODE_MASK))).
Proof.
  set (M := to_u32 (Z.lnot TCR_ENAMODE_MASK)).
  rewrite (to_u32_land_l (to_u32 (Z.land t M)) M), to_u32_idem.
  rewrite <- to_u32_land_l, <- Z.land_assoc, Z.land_diag. reflexivity.
Qed.

Lemma on_value_idem t c :
  to_u32 (Z.lor (to_u32 (Z.lor t (to_u32 c))) (to_u32 c)) =
  to_u32 (Z.lor t (to_u32 c)).
Proof.
  rewrite !to_u32_lor, !to_u32_idem.
  by rewrite <- Z.lor_assoc, Z.lor_diag.
Qed.

(** The value [set_timeo] stores last has an enable-mode bit set when the
    flags are one of the two modes. *)
Lemma fin_value_enabled t flags :
  flags = TCR_ENAMODE_ONESHOT_MASK ∨ flags = TCR_ENAMODE_PERIODIC_MASK →
  Z.land (to_u32 (Z.lor t (to_u32 flags))) TCR_ENAMODE_MASK ≠ 0.
Proof.
  intros Hf. rewrite <- to_u32_land_l, Z.land_lor_distr_l, to_u32_lor.
  intros H. apply Z.lor_eq_0_iff in H as [_ H].
  destruct Hf as [-> | ->]; vm_compute in H; discriminate.
Qed.

(** ** The conversion *)

Lemma ticks_unfold ns :
  0 ≤ ns < 2 ^ 64 →
  TIMER_INTERVAL_TICKS ns =
    to_u32 (to_u64 (ns * TICKS_PER_SECOND) / 1000000000).
Proof.
  intros H. unfold TIMER_INTERVAL_TICKS.
  rewrite Z.mul_1_l. unfold to_u64 at 2. rewrite (Z.mod_small ns) by lia.
  rewrite !Z.div_div by lia. reflexivity.
Qed.

Lemma ticks_exact ns :
  0 ≤ ns < 20971520000 →
  ns * TICKS_PER_SECOND < 2 ^ 64 ∧ ticks_reference ns < 2 ^ 32 ∧
  TIMER_INTERVAL_TICKS ns = ticks_reference ns.
Proof.
  intros H. unfold TICKS_PER_SECOND.
  assert (Hp : 0 ≤ ns * 204800000 < 2 ^ 32 * 1000000000) by lia.
  assert (Hq : 0 ≤ ns * 204800000 / 1000000000 < 2 ^ 32).
  { split; [apply Z.div_pos; lia | apply Z.div_lt_upper_bound; lia]. }
  split; [lia|]. unfold ticks_reference, TICKS_PER_SECOND. split; [lia|].
  rewrite ticks_unfold by lia. unfold to_u64, TICKS_PER_SECOND.
  rewrite (Z.mod_small (ns * 204800000)) by lia.
  by apply to_u32_small.
Qed.

Lemma ticks_truncated ns :
  20971520000 ≤ ns → TIMER_INTERVAL_TICKS ns ≠ ticks_reference ns.
Proof.
  intros H E.
  assert (Hr : 2 ^ 32 ≤ ticks_reference ns).
  { unfold ticks_reference, TICKS_PER_SECOND.
    apply Z.div_le_lower_bound; lia. }
  pose proof (to_u32_range
    (to_u64 (to_u64 (1 * ns) * TICKS_PER_SECOND) / 1000 / 1000 / 1000)) as Hb.
  fold (TIMER_INTERVAL_TICKS ns) in Hb. lia.
Qed.

Lemma ticks_range ns : 0 ≤ TIMER_INTERVAL_TICKS ns < 2 ^ 32.
Proof. apply to_u32_range. Qed.

Lemma ticks_split ns :
  to_u32 (Z.land (TIMER_INTERVAL_TICKS ns) 0xffffffff) = TIMER_INTERVAL_TICKS ns ∧
  to_u32 (Z.shiftr (TIMER_INTERVAL_TICKS ns) 32) = 0.
Proof.
  pose proof (ticks_range ns) as H. split.
  - change 0xffffffff with (Z.ones 32).
    rewrite <- to_u32_ones, to_u32_idem. by apply to_u32_small.
  - rewrite Z.shiftr_div_pow2 by lia. rewrite Z.div_small by lia. reflexivity.
Qed.

(** ** Traces of an arming call *)

Lemma arm_trace_order a t off lo hi fin :
  Z.land off TCR_ENAMODE_MASK = 0 →
  Z.land fin TCR_ENAMODE_MASK ≠ 0 →
  let tr := [Read a TCR t; Write a TCR off; Dmb;
             Write a CNTLO 0; Write a CNTHI 0;
             Write a PRDLO lo; Write a PRDHI hi;
             Write a INTCTLSTAT INTCTLSTAT_ACK_MASK; Dmb;
             Write a TCR fin] in
  preceded_by tcr_disable period_write tr ∧
  all_before (λ d, period_write d || ack_write d) tcr_enable tr ∧
  last tr = Some (Write a TCR fin) ∧
  tcr_enable (Write a TCR fin) = true.
Proof.
  intros Hoff Hfin tr.
  assert (Hd : tcr_disable (Write a TCR off) = true).
  { simpl. by apply Z.eqb_eq. }
  assert (He : tcr_enable (Write a TCR off) = false).
  { simpl. apply Z.eqb_eq in Hoff. by rewrite Hoff. }
  assert (Hf : tcr_enable (Write a TCR fin) = true).
  { simpl. apply Z.eqb_neq in Hfin. by rewrite Hfin. }
  repeat split; [| |done].
  - intros i e Hi Hq. subst tr.
    do 10 (destruct i as [|i];
           [simpl in Hi; injection Hi as <-;
            first [ discriminate Hq
                  | exists 1%nat, (Write a TCR off);
                    split; [lia | split; [reflexivity | exact Hd]] ] |]).
    discriminate Hi.
  - intros i j e d Hi Hp Hj Hq. subst tr.
    do 9 (destruct i as [|i];
          [simpl in Hi; injection Hi as <-;
           first [ discriminate Hp | congruence ] |]).
    destruct i as [|i]; [|discriminate Hi].
    do 9 (destruct j as [|j]; [lia|]).
    destruct j as [|j]; [|discriminate Hj].
    simpl in Hj. injection Hj as <-. discriminate Hq.
Qed.

(** ** Concrete runs *)

Example ticks_1ms : TIMER_INTERVAL_TICKS 1000000 = 204800.
Proof. reflexivity. Qed.

Example ticks_smallest_accepted :
  TIMER_INTERVAL_TICKS 9 = 1 ∧ TIMER_INTERVAL_TICKS 10 = 2.
Proof. split; reflexivity. Qed.

Example ticks_first_truncated :
  TIMER_INTERVAL_TICKS 20971519999 = 4294967295 ∧
  TIMER_INTERVAL_TICKS 20971520000 = 0.
Proof. split; reflexivity. Qed.

(** [bound_world] is the state the factory leaves on a fresh board, up to
    the block contents. *)
Example factory_on_fresh_board :
  ∃ tr, ps_get_timer 1 0 (Some cfg0) (fresh_world quiet_map) =
          Some (Some 0%nat,
                bound_world (Build_map 0 0 0 0 0 0 3 0 0 0 0 0 1), tr).
Proof. eexists. vm_compute. reflexivity. Qed.

(** A null handle, and a handle of the zero-initialised pool (null
    [data]), fault at the first dereference. *)
Example null_handle_faults w : keystone_timer_stop None w = None.
Proof. reflexivity. Qed.

Example unbound_handle_faults :
  keystone_timer_stop (Some 0%nat) (fresh_world quiet_map) = None.
Proof. reflexivity. Qed.

(** Arming one-shot over a control register that holds the periodic bit:
    the disabling write is 0, the enabling write is 0xC0. *)
Example oneshot_over_periodic :
  snd <$> keystone_oneshot_relative (Some 0%nat) 1000000
            (bound_world (Build_map 0 0 0 0 0 0x80 3 0 0 0 0 0 1)) =
  Some [Read base0 TCR 0x80; Write base0 TCR 0; Dmb;
        Write base0 CNTLO 0; Write base0 CNTHI 0;
        Write base0 PRDLO 204800; Write base0 PRDHI 0;
        Write base0 INTCTLSTAT 3; Dmb; Write base0 TCR 0xC0].
Proof. vm_compute. reflexivity. Qed.

(** * The claims *)

(** C1 (as amended).  For every [ns] below 20 971 520 000, that is,
    whenever the exact quotient [ns * TICKS_PER_SECOND / 10^9] fits 32
    bits, the tick count computed by [set_timeo] equals that quotient:
    the 64-bit product does not overflow and the cast cuts nothing. *)
Theorem tick_conversion_exact_when_fits (ns : Z) :
  0 ≤ ns < 20971520000 →
  to_u64 (to_u64 (1 * ns) * TICKS_PER_SECOND) = ns * TICKS_PER_SECOND ∧
  ticks_reference ns < 2 ^ 32 ∧
  TIMER_INTERVAL_TICKS ns = ticks_reference ns.
Proof.
  intros H. destruct (ticks_exact ns H) as (Hp & Hq & Ht).
  split; [|done].
  rewrite Z.mul_1_l. unfold to_u64 at 2. rewrite (Z.mod_small ns) by lia.
  apply Z.mod_small. unfold TICKS_PER_SECOND in *. lia.
Qed.

Lemma tick_conversion_exact_when_fits_witness :
  to_u64 (to_u64 (1 * 20971519999) * TICKS_PER_SECOND)
    = 20971519999 * TICKS_PER_SECOND ∧
  ticks_reference 20971519999 < 2 ^ 32 ∧
  TIMER_INTERVAL_TICKS 20971519999 = ticks_reference 20971519999.
Proof. apply (tick_conversion_exact_when_fits 20971519999). lia. Defined.

(** C1 (as stated) fails: at 21 s the exact quotient is 4 300 800 000,
    which the cast to [uint32_t] cuts to 5 832 704; at 100 s the 64-bit
    product itself has wrapped. *)
Lemma tick_conversion_not_exact :
  0 ≤ 21000000000 < 2 ^ 64 ∧
  TIMER_INTERVAL_TICKS 21000000000 = 5832704 ∧
  ticks_reference 21000000000 = 4300800000 ∧
  TIMER_INTERVAL_TICKS 21000000000 ≠ ticks_reference 21000000000 ∧
  to_u64 (to_u64 (1 * 100000000000) * TICKS_PER_SECOND) ≠
    100000000000 * TICKS_PER_SECOND.
Proof. repeat split; try lia; vm_compute; congruence. Qed.

(** C2 (the code departs from it).  Obtaining timer 0, arming it periodic
    and then arming it one-shot ends with the control register read as
    0x80 and written as 0xC0: the periodic bit is still set in the final
    control write, where the prior value with both enable-mode bits
    cleared and the one-shot bit set is 0x40. *)
Theorem rearm_oneshot_keeps_periodic_bit :
  ∃ w' pre,
    rearm (fresh_world quiet_map) =
      Some (0, w',
            pre ++ [Read base0 TCR 0x80; Write base0 TCR 0; Dmb;
                    Write base0 CNTLO 0; Write base0 CNTHI 0;
                    Write base0 PRDLO 204800; Write base0 PRDHI 0;
                    Write base0 INTCTLSTAT INTCTLSTAT_ACK_MASK; Dmb;
                    Write base0 TCR 0xC0]) ∧
    tcr <$> mem w' !! base0 = Some 0xC0 ∧
    Z.land 0xC0 TCR_ENAMODE_PERIODIC_MASK ≠ 0 ∧
    Z.lor (Z.land 0x80 (to_u32 (Z.lnot TCR_ENAMODE_MASK)))
          TCR_ENAMODE_ONESHOT_MASK = 0x40.
Proof.
  eexists _, (_ :: _ :: _ :: _ :: _ :: _ :: _ :: _ :: _ :: _ :: _ :: _ :: _
              :: _ :: _ :: _ :: [_]).
  split; [vm_compute; reflexivity|].
  split; [vm_compute; reflexivity|].
  split; vm_compute; congruence.
Qed.

(** C3.  When the converted tick count is below 2 (the computed count,
    or the exact quotient of an [ns] of the input range), [set_timeo],
    and hence [periodic] and [oneshot_relative], return [EINVAL], make no
    register access and leave the whole state as it was. *)
Theorem set_timeo_rejects_short_period w timer k m ns :
  handle_ok w timer k m →
  TIMER_INTERVAL_TICKS ns < 2 ∨ (0 ≤ ns < 2 ^ 64 ∧ ticks_reference ns < 2) →
  (∀ tcrFlags, keystone_set_timeo (Some timer) ns tcrFlags w = Some (EINVAL, w, [])) ∧
  keystone_periodic (Some timer) ns w = Some (EINVAL, w, []) ∧
  keystone_oneshot_relative (Some timer) ns w = Some (EINVAL, w, []) ∧
  EINVAL ≠ 0.
Proof.
  intros Hok Hns.
  assert (Hlt : TIMER_INTERVAL_TICKS ns < 2).
  { destruct Hns as [?|[Hr Hx]]; [done|].
    destruct (Z.lt_ge_cases ns 20971520000) as [Hs|Hs].
    - destruct (ticks_exact ns) as (_ & _ & ->); lia.
    - exfalso. unfold ticks_reference, TICKS_PER_SECOND in Hx.
      assert (2 ≤ ns * 204800000 / 1000000000); [|lia].
      apply Z.div_le_lower_bound; lia. }
  unfold keystone_periodic, keystone_oneshot_relative.
  repeat split; intros; try by apply (keystone_set_timeo_reject _ _ k m).
  discriminate.
Qed.

Lemma set_timeo_rejects_short_period_witness :
  (∀ tcrFlags, keystone_set_timeo (Some 0%nat) 9 tcrFlags (bound_world quiet_map)
               = Some (EINVAL, bound_world quiet_map, [])) ∧
  keystone_periodic (Some 0%nat) 9 (bound_world quiet_map)
    = Some (EINVAL, bound_world quiet_map, []) ∧
  keystone_oneshot_relative (Some 0%nat) 9 (bound_world quiet_map)
    = Some (EINVAL, bound_world quiet_map, []) ∧
  EINVAL ≠ 0.
Proof.
  apply (set_timeo_rejects_short_period (bound_world quiet_map) 0
           {| hw := base0; irq := 64 |} quiet_map 9).
  - exists (bound_pstimer 0), 0%nat. repeat split; vm_compute; reflexivity.
  - left. vm_compute. reflexivity.
Defined.

(** C4.  A successful arming call in either mode makes exactly these
    accesses, in this order: read the control register, write it with
    both enable-mode bits clear, barrier, zero the counter, write
    period-low and period-high, write the acknowledge pattern, barrier,
    write the control register with an enable-mode bit set.  Hence every
    period write has a disabling control write before it, and every
    period write and the acknowledge write come before the one enabling
    control write, which is the last access. *)
Theorem set_timeo_write_order w timer k m ns tcrFlags w' tr :
  handle_ok w timer k m →
  tcrFlags = TCR_ENAMODE_ONESHOT_MASK ∨ tcrFlags = TCR_ENAMODE_PERIODIC_MASK →
  keystone_set_timeo (Some timer) ns tcrFlags w = Some (0, w', tr) →
  (∃ off lo hi fin,
     tr = [Read (hw k) TCR (tcr m); Write (hw k) TCR off; Dmb;
           Write (hw k) CNTLO 0; Write (hw k) CNTHI 0;
           Write (hw k) PRDLO lo; Write (hw k) PRDHI hi;
           Write (hw k) INTCTLSTAT INTCTLSTAT_ACK_MASK; Dmb;
           Write (hw k) TCR fin] ∧
     Z.land off TCR_ENAMODE_MASK = 0 ∧
     Z.land fin TCR_ENAMODE_MASK ≠ 0) ∧
  preceded_by tcr_disable period_write tr ∧
  all_before (λ d, period_write d || ack_write d) tcr_enable tr ∧
  (∃ e, last tr = Some e ∧ tcr_enable e = true).
Proof.
  intros Hok Hf Hrun.
  destruct (Z.lt_ge_cases (TIMER_INTERVAL_TICKS ns) 2) as [Hlt|Hge].
  { rewrite (keystone_set_timeo_reject _ _ _ _ _ _ Hok Hlt) in Hrun.
    discriminate Hrun. }
  rewrite (keystone_set_timeo_run _ _ _ _ _ _ Hok Hge) in Hrun.
  injection Hrun as _ <-.
  pose proof (off_value_disabled (tcr m)) as Hoff.
  pose proof (fin_value_enabled (tcr m) tcrFlags Hf) as Hfin.
  destruct (arm_trace_order (hw k) (tcr m) _
              (to_u32 (Z.land (TIMER_INTERVAL_TICKS ns) 0xffffffff))
              (to_u32 (Z.shiftr (TIMER_INTERVAL_TICKS ns) 32))
              _ Hoff Hfin) as (H1 & H2 & H3 & H4).
  split; [by eexists _, _, _, _|].
  split; [exact H1|]. split; [exact H2|]. eexists. split; [exact H3|exact H4].
Qed.

Lemma set_timeo_write_order_witness :
  ∃ w' tr,
    keystone_set_timeo (Some 0%nat) 1000000 TCR_ENAMODE_PERIODIC_MASK
      (bound_world quiet_map) = Some (0, w', tr) ∧
    (∃ off lo hi fin,
       tr = [Read base0 TCR 0; Write base0 TCR off; Dmb;
             Write base0 CNTLO 0; Write base0 CNTHI 0;
             Write base0 PRDLO lo; Write base0 PRDHI hi;
             Write base0 INTCTLSTAT INTCTLSTAT_ACK_MASK; Dmb;
             Write base0 TCR fin] ∧
       Z.land off TCR_ENAMODE_MASK = 0 ∧
       Z.land fin TCR_ENAMODE_MASK ≠ 0) ∧
    preceded_by tcr_disable period_write tr ∧
    all_before (λ d, period_write d || ack_write d) tcr_enable tr ∧
    (∃ e, last tr = Some e ∧ tcr_enable e = true).
Proof.
  eexists _, _. split; [vm_compute; reflexivity|].
  eapply (set_timeo_write_order (bound_world quiet_map) 0
           {| hw := base0; irq := 64 |} quiet_map 1000000
           TCR_ENAMODE_PERIODIC_MASK).
  - exists (bound_pstimer 0), 0%nat. repeat split; vm_compute; reflexivity.
  - right. reflexivity.
  - vm_compute. reflexivity.
Defined.

(** C5.  Through a valid handle, [stop] returns 0 and a second [stop]
    returns 0 and leaves the whole state (the control register with its
    enable-mode bits, and every other register) as the first left it;
    the same holds for [start]. *)
Theorem start_stop_idempotent w timer k m :
  handle_ok w timer k m →
  (∃ w1 t1 t2,
     keystone_timer_stop (Some timer) w = Some (0, w1, t1) ∧
     keystone_timer_stop (Some timer) w1 = Some (0, w1, t2) ∧
     (∃ m1, mem w1 !! hw k = Some m1 ∧ Z.land (tcr m1) TCR_ENAMODE_MASK = 0)) ∧
  (∃ w1 t1 t2,
     keystone_timer_start (Some timer) w = Some (0, w1, t1) ∧
     keystone_timer_start (Some timer) w1 = Some (0, w1, t2) ∧
     (∃ m1, mem w1 !! hw k = Some m1 ∧
            Z.land (tcr m1) TCR_ENAMODE_MASK = TCR_ENAMODE_MASK)).
Proof.
  intros Hok. split.
  - eexists _, _, _. split; [exact (keystone_timer_stop_run _ _ _ _ Hok)|].
    set (m1 := set_reg TCR _ m).
    rewrite (keystone_timer_stop_run _ _ k m1) by exact (handle_ok_dev _ _ _ _ _ Hok).
    rewrite dev_dev. split.
    + f_equal. f_equal. f_equal. f_equal. subst m1. destruct m. simpl.
      by rewrite off_value_idem.
    + exists m1. split; [apply lookup_insert_eq|].
      subst m1. destruct m. simpl. apply off_value_disabled.
  - eexists _, _, _. split; [exact (keystone_timer_start_run _ _ _ _ Hok)|].
    set (m1 := set_reg TCR _ m).
    rewrite (keystone_timer_start_run _ _ k m1) by exact (handle_ok_dev _ _ _ _ _ Hok).
    rewrite dev_dev. split.
    + f_equal. f_equal. f_equal. f_equal. subst m1. destruct m. simpl.
      by rewrite on_value_idem.
    + exists m1. split; [apply lookup_insert_eq|].
      subst m1. destruct m. simpl.
      rewrite <- to_u32_land_l, Z.land_lor_distr_l, to_u32_lor.
      change (to_u32 (Z.land (to_u32 TCR_ENAMODE_MASK) TCR_ENAMODE_MASK))
        with TCR_ENAMODE_MASK.
      rewrite to_u32_land_r. change (to_u32 TCR_ENAMODE_MASK) with TCR_ENAMODE_MASK.
      apply Z.bits_inj'. intros n Hn.
      rewrite Z.lor_spec, Z.land_spec. by destruct (Z.testbit _ n), (Z.testbit _ n).
Qed.

Lemma start_stop_idempotent_witness :
  (∃ w1 t1 t2,
     keystone_timer_stop (Some 0%nat) (bound_world quiet_map) = Some (0, w1, t1) ∧
     keystone_timer_stop (Some 0%nat) w1 = Some (0, w1, t2) ∧
     (∃ m1, mem w1 !! base0 = Some m1 ∧ Z.land (tcr m1) TCR_ENAMODE_MASK = 0)) ∧
  (∃ w1 t1 t2,
     keystone_timer_start (Some 0%nat) (bound_world quiet_map) = Some (0, w1, t1) ∧
     keystone_timer_start (Some 0%nat) w1 = Some (0, w1, t2) ∧
     (∃ m1, mem w1 !! base0 = Some m1 ∧
            Z.land (tcr m1) TCR_ENAMODE_MASK = TCR_ENAMODE_MASK)).
Proof.
  apply (start_stop_idempotent (bound_world quiet_map) 0
           {| hw := base0; irq := 64 |} quiet_map).
  exists (bound_pstimer 0), 0%nat. repeat split; vm_compute; reflexivity.
Defined.

(** C6.  For every [id >= NTIMERS], every configuration pointer (null
    included) and every state, [ps_get_timer] returns the null pointer,
    makes no register access and leaves the pools and the device memory
    as they were. *)
Theorem ps_get_timer_out_of_range NTIMERS id config w :
  (NTIMERS ≤ id)%nat →
  ps_get_timer NTIMERS id config w = Some (None, w, []).
Proof. apply ps_get_timer_reject. Qed.

Lemma ps_get_timer_out_of_range_witness :
  ps_get_timer 1 1 (Some cfg0) (fresh_world quiet_map)
    = Some (None, fresh_world quiet_map, []).
Proof. apply (ps_get_timer_out_of_range 1 1 (Some cfg0)). lia. Defined.

(** C7.  Through a valid handle, [reset] makes exactly these accesses,
    in this order: control register := 0, barrier, global control := 0,
    global control := the un-reset value, counter-low := 0,
    counter-high := 0, interrupt control/status := the enable bit.  For
    every valid [id], [ps_get_timer] binds the slot and makes exactly
    these accesses on the configured block before it returns the
    handle. *)
Theorem reset_sequence_and_factory NTIMERS w timer k m w0 id c m0 :
  handle_ok w timer k m →
  (id < NTIMERS)%nat →
  length (timers w0) = NTIMERS → length (kts w0) = NTIMERS →
  mem w0 !! vaddr c = Some m0 →
  (∃ w',
     keystone_timer_reset (Some timer) w =
       Some (tt, w',
             [Write (hw k) TCR 0; Dmb; Write (hw k) TGCR 0;
              Write (hw k) TGCR TGCR_TIM_UNRESET_MASK;
              Write (hw k) CNTLO 0; Write (hw k) CNTHI 0;
              Write (hw k) INTCTLSTAT INTCTLSTAT_ENINT_MASK]) ∧
     ∃ m', mem w' !! hw k = Some m' ∧
           tcr m' = 0 ∧ tgcr m' = TGCR_TIM_UNRESET_MASK ∧
           cntlo m' = 0 ∧ cnthi m' = 0 ∧
           intctlstat m' = INTCTLSTAT_ENINT_MASK) ∧
  (∃ w',
     ps_get_timer NTIMERS id (Some c) w0 =
       Some (Some id, w',
             [Write (vaddr c) TCR 0; Dmb; Write (vaddr c) TGCR 0;
              Write (vaddr c) TGCR TGCR_TIM_UNRESET_MASK;
              Write (vaddr c) CNTLO 0; Write (vaddr c) CNTHI 0;
              Write (vaddr c) INTCTLSTAT INTCTLSTAT_ENINT_MASK]) ∧
     timers w' !! id = Some (bound_pstimer id) ∧
     kts w' !! id = Some {| hw := vaddr c; irq := to_u32 (cfg_irq c) |} ∧
     ∃ m', mem w' !! vaddr c = Some m' ∧
           tcr m' = 0 ∧ tgcr m' = TGCR_TIM_UNRESET_MASK ∧
           cntlo m' = 0 ∧ cnthi m' = 0 ∧
           intctlstat m' = INTCTLSTAT_ENINT_MASK).
Proof.
  intros Hok Hid Hts Hks Hm0. split.
  - eexists. split; [exact (keystone_timer_reset_run _ _ _ _ Hok)|].
    eexists. split; [apply lookup_insert_eq|]. by destruct m.
  - eexists. split; [exact (ps_get_timer_run _ _ _ _ _ Hid Hts Hks Hm0)|].
    simpl. rewrite !list_lookup_insert_eq by lia.
    split; [done|]. split; [done|].
    eexists. split; [apply lookup_insert_eq|]. by destruct m0.
Qed.

Lemma reset_sequence_and_factory_witness :
  (∃ w',
     keystone_timer_reset (Some 0%nat) (bound_world quiet_map) =
       Some (tt, w',
             [Write base0 TCR 0; Dmb; Write base0 TGCR 0;
              Write base0 TGCR TGCR_TIM_UNRESET_MASK;
              Write base0 CNTLO 0; Write base0 CNTHI 0;
              Write base0 INTCTLSTAT INTCTLSTAT_ENINT_MASK]) ∧
     ∃ m', mem w' !! base0 = Some m' ∧
           tcr m' = 0 ∧ tgcr m' = TGCR_TIM_UNRESET_MASK ∧
           cntlo m' = 0 ∧ cnthi m' = 0 ∧
           intctlstat m' = INTCTLSTAT_ENINT_MASK) ∧
  (∃ w',
     ps_get_timer 1 0 (Some cfg0) (fresh_world quiet_map) =
       Some (Some 0%nat, w',
             [Write base0 TCR 0; Dmb; Write base0 TGCR 0;
              Write base0 TGCR TGCR_TIM_UNRESET_MASK;
              Write base0 CNTLO 0; Write base0 CNTHI 0;
              Write base0 INTCTLSTAT INTCTLSTAT_ENINT_MASK]) ∧
     timers w' !! 0%nat = Some (bound_pstimer 0) ∧
     kts w' !! 0%nat = Some {| hw := base0; irq := to_u32 64 |} ∧
     ∃ m', mem w' !! base0 = Some m' ∧
           tcr m' = 0 ∧ tgcr m' = TGCR_TIM_UNRESET_MASK ∧
           cntlo m' = 0 ∧ cnthi m' = 0 ∧
           intctlstat m' = INTCTLSTAT_ENINT_MASK).
Proof.
  apply (reset_sequence_and_factory 1 (bound_world quiet_map) 0
           {| hw := base0; irq := 64 |} quiet_map
           (fresh_world quiet_map) 0 cfg0 quiet_map).
  - exists (bound_pstimer 0), 0%nat. repeat split; vm_compute; reflexivity.
  - lia.
  - reflexivity.
  - reflexivity.
  - vm_compute. reflexivity.
Defined.

(** C9.  For every valid [id], the handle that [ps_get_timer] returns
    answers [get_nth_irq] with the interrupt line of the configuration
    (as stored in the 32-bit [irq] member) for every [n], in range or
    not, with no register access and no change of state. *)
Theorem get_nth_irq_ignores_n NTIMERS w id c m :
  (id < NTIMERS)%nat →
  length (timers w) = NTIMERS → length (kts w) = NTIMERS →
  mem w !! vaddr c = Some m →
  ∃ w' tr,
    ps_get_timer NTIMERS id (Some c) w = Some (Some id, w', tr) ∧
    kts w' !! id = Some {| hw := vaddr c; irq := to_u32 (cfg_irq c) |} ∧
    (∀ n, keystone_get_nth_irq (Some id) n w' = Some (to_u32 (cfg_irq c), w', [])) ∧
    (0 ≤ cfg_irq c < 2 ^ 32 → to_u32 (cfg_irq c) = cfg_irq c).
Proof.
  intros Hid Hts Hks Hm.
  eexists _, _. split; [exact (ps_get_timer_run _ _ _ _ _ Hid Hts Hks Hm)|].
  split; [|split].
  - simpl. by rewrite list_lookup_insert_eq by lia.
  - intros n.
    apply (keystone_get_nth_irq_run _ id
             {| hw := vaddr c; irq := to_u32 (cfg_irq c) |}
             (set_reg INTCTLSTAT INTCTLSTAT_ENINT_MASK
                (set_reg CNTHI 0 (set_reg CNTLO 0
                   (set_reg TGCR TGCR_TIM_UNRESET_MASK
                      (set_reg TGCR 0 (set_reg TCR 0 m))))))).
    exists (bound_pstimer id), id. simpl.
    rewrite !list_lookup_insert_eq by lia. by rewrite lookup_insert_eq.
  - apply to_u32_small.
Qed.

Lemma get_nth_irq_ignores_n_witness :
  ∃ w' tr,
    ps_get_timer 1 0 (Some cfg0) (fresh_world quiet_map) = Some (Some 0%nat, w', tr) ∧
    kts w' !! 0%nat = Some {| hw := base0; irq := to_u32 64 |} ∧
    (∀ n, keystone_get_nth_irq (Some 0%nat) n w' = Some (to_u32 64, w', [])) ∧
    (0 ≤ 64 < 2 ^ 32 → to_u32 64 = 64).
Proof.
  apply (get_nth_irq_ignores_n 1 (fresh_world quiet_map) 0 cfg0 quiet_map).
  - lia.
  - reflexivity.
  - reflexivity.
  - vm_compute. reflexivity.
Defined.

(** C10.  In every successful arming call the only value written to
    period-high is 0 and period-low receives the computed tick count,
    which is below 2^32: the programmed 64-bit period never exceeds
    2^32 - 1, whatever [ns] is. *)
Theorem set_timeo_period_high_zero w timer k m ns tcrFlags w' tr :
  handle_ok w timer k m →
  keystone_set_timeo (Some timer) ns tcrFlags w = Some (0, w', tr) →
  Write (hw k) PRDHI 0 ∈ tr ∧
  (∀ a v, Write a PRDHI v ∈ tr → v = 0) ∧
  Write (hw k) PRDLO (TIMER_INTERVAL_TICKS ns) ∈ tr ∧
  ∃ m', mem w' !! hw k = Some m' ∧
        prdhi m' = 0 ∧ prdlo m' = TIMER_INTERVAL_TICKS ns ∧
        0 ≤ prdlo m' + 2 ^ 32 * prdhi m' ≤ 2 ^ 32 - 1.
Proof.
  intros Hok Hrun.
  destruct (Z.lt_ge_cases (TIMER_INTERVAL_TICKS ns) 2) as [Hlt|Hge].
  { rewrite (keystone_set_timeo_reject _ _ _ _ _ _ Hok Hlt) in Hrun.
    discriminate Hrun. }
  rewrite (keystone_set_timeo_run _ _ _ _ _ _ Hok Hge) in Hrun.
  destruct (ticks_split ns) as [Hlo Hhi]. rewrite Hlo, Hhi in Hrun.
  injection Hrun as <- <-.
  split; [set_solver|]. split.
  - intros a v Hin.
    repeat (apply elem_of_cons in Hin as [Hin|Hin];
            [first [discriminate Hin | by injection Hin] |]).
    by apply not_elem_of_nil in Hin.
  - split; [set_solver|].
    eexists. split; [apply lookup_insert_eq|].
    pose proof (ticks_range ns) as Hr.
    destruct m. simpl. lia.
Qed.

Lemma set_timeo_period_high_zero_witness :
  ∃ w' tr,
    keystone_set_timeo (Some 0%nat) 21000000000 TCR_ENAMODE_ONESHOT_MASK
      (bound_world quiet_map) = Some (0, w', tr) ∧
    Write base0 PRDHI 0 ∈ tr ∧
    (∀ a v, Write a PRDHI v ∈ tr → v = 0) ∧
    Write base0 PRDLO (TIMER_INTERVAL_TICKS 21000000000) ∈ tr ∧
    ∃ m', mem w' !! base0 = Some m' ∧
          prdhi m' = 0 ∧ prdlo m' = TIMER_INTERVAL_TICKS 21000000000 ∧
          0 ≤ prdlo m' + 2 ^ 32 * prdhi m' ≤ 2 ^ 32 - 1.
Proof.
  eexists _, _. split; [vm_compute; reflexivity|].
  eapply (set_timeo_period_high_zero (bound_world quiet_map) 0
            {| hw := base0; irq := 64 |} quiet_map 21000000000
            TCR_ENAMODE_ONESHOT_MASK).
  - exists (bound_pstimer 0), 0%nat. repeat split; vm_compute; reflexivity.
  - vm_compute. reflexivity.
Defined.

(** * Further properties of the driver *)

(** ** Registers and blocks an access leaves alone *)

Lemma get_set_reg_eq r v m : get_reg r (set_reg r v m) = v.
Proof. by destruct m, r. Qed.

Lemma get_set_reg_ne r r' v m : r ≠ r' → get_reg r (set_reg r' v m) = get_reg r m.
Proof. intros H. destruct m, r, r'; simpl; congruence. Qed.

Lemma keeps_refl rs m : keeps rs m m.
Proof. by intros r _. Qed.

Lemma keeps_set_reg rs r v m m' :
  r ∈ rs → keeps rs m m' → keeps rs m (set_reg r v m').
Proof.
  intros Hin Hk r' Hr'. rewrite get_set_reg_ne; [by apply Hk|].
  intros ->. by apply Hr'.
Qed.

Lemma mem_dev_eq w a m : mem (dev w a m) !! a = Some m.
Proof. apply lookup_insert_eq. Qed.

Lemma mem_dev_ne w a b m : b ≠ a → mem (dev w a m) !! b = mem w !! b.
Proof. intros H. unfold dev, with_mem. simpl. by apply lookup_insert_ne. Qed.

Lemma handle_ok_dev_other w a m m0 t2 k2 m2 :
  mem w !! a = Some m0 →
  handle_ok w t2 k2 m2 → ∃ m2', handle_ok (dev w a m) t2 k2 m2'.
Proof.
  intros Ha (t & kt & Ht & Hd & Hk & Hm).
  destruct (decide (hw k2 = a)) as [E|E].
  - exists m, t, kt. repeat split; try done. rewrite E. apply mem_dev_eq.
  - exists m2, t, kt. repeat split; try done. by rewrite mem_dev_ne.
Qed.

Lemma confined_refl w a : confined w a w [].
Proof.
  repeat split; try done. intros t2 k2 m2 H. by exists m2.
Qed.

Lemma confined_dev w a m0 m tr :
  mem w !! a = Some m0 →
  Forall (λ e, at_block a e = true) tr →
  confined w a (dev w a m) tr.
Proof.
  intros Ha Htr. repeat split; try done.
  - intros b Hb. by apply mem_dev_ne.
  - intros t2 k2 m2. by apply handle_ok_dev_other with m0.
Qed.

Lemma handle_ok_mem w timer k m : handle_ok w timer k m → mem w !! hw k = Some m.
Proof. by intros (t & kt & _ & _ & _ & Hm). Qed.

Ltac at_block_trace :=
  repeat constructor; simpl; by apply bool_decide_eq_true.

(** X1.  Through a valid handle no driver function faults, and each one
    stays within the handle's register block: the pools and every other
    block are left as they were, every access is to that block, and
    every valid handle is still valid afterwards. *)
Theorem driver_ops_confined w timer k m ns tcrFlags i n :
  handle_ok w timer k m →
  (∃ w' tr, keystone_timer_reset (Some timer) w = Some (tt, w', tr) ∧
            confined w (hw k) w' tr) ∧
  (∃ w' tr, keystone_timer_stop (Some timer) w = Some (0, w', tr) ∧
            confined w (hw k) w' tr) ∧
  (∃ w' tr, keystone_timer_start (Some timer) w = Some (0, w', tr) ∧
            confined w (hw k) w' tr) ∧
  (∃ r w' tr, keystone_set_timeo (Some timer) ns tcrFlags w = Some (r, w', tr) ∧
              (r = 0 ∨ r = EINVAL) ∧ confined w (hw k) w' tr) ∧
  (∃ w' tr, keystone_handle_irq (Some timer) i w = Some (tt, w', tr) ∧
            confined w (hw k) w' tr) ∧
  (∃ r tr, keystone_get_time (Some timer) w = Some (r, w, tr) ∧
           confined w (hw k) w tr) ∧
  (∃ r, keystone_get_nth_irq (Some timer) n w = Some (r, w, [])).
Proof.
  intros Hok. pose proof (handle_ok_mem _ _ _ _ Hok) as Hm.
  repeat apply conj.
  - eexists _, _. split; [exact (keystone_timer_reset_run _ _ _ _ Hok)|].
    apply confined_dev with m; [done|at_block_trace].
  - eexists _, _. split; [exact (keystone_timer_stop_run _ _ _ _ Hok)|].
    apply confined_dev with m; [done|at_block_trace].
  - eexists _, _. split; [exact (keystone_timer_start_run _ _ _ _ Hok)|].
    apply confined_dev with m; [done|at_block_trace].
  - destruct (Z.lt_ge_cases (TIMER_INTERVAL_TICKS ns) 2) as [Hlt|Hge].
    + eexists _, _, _.
      split; [exact (keystone_set_timeo_reject _ _ _ _ _ _ Hok Hlt)|].
      split; [by right|apply confined_refl].
    + eexists _, _, _.
      split; [exact (keystone_set_timeo_run _ _ _ _ _ _ Hok Hge)|].
      split; [by left|]. apply confined_dev with m; [done|at_block_trace].
  - eexists _, _. split; [exact (keystone_handle_irq_run _ _ _ _ _ Hok)|].
    apply confined_dev with m; [done|at_block_trace].
  - eexists _, _. split; [exact (keystone_get_time_run _ _ _ _ Hok)|].
    rewrite <- (dev_id _ _ _ Hm) at 2.
    apply confined_dev with m; [done|at_block_trace].
  - eexists. exact (keystone_get_nth_irq_run _ _ _ _ _ Hok).
Qed.

Lemma driver_ops_confined_witness :
  let w := board2 quiet_map quiet_map in
  (∃ w' tr, keystone_timer_reset (Some 0%nat) w = Some (tt, w', tr) ∧
            confined w base0 w' tr) ∧
  (∃ w' tr, keystone_timer_stop (Some 0%nat) w = Some (0, w', tr) ∧
            confined w base0 w' tr) ∧
  (∃ w' tr, keystone_timer_start (Some 0%nat) w = Some (0, w', tr) ∧
            confined w base0 w' tr) ∧
  (∃ r w' tr, keystone_set_timeo (Some 0%nat) 1000000 TCR_ENAMODE_PERIODIC_MASK w
                = Some (r, w', tr) ∧
              (r = 0 ∨ r = EINVAL) ∧ confined w base0 w' tr) ∧
  (∃ w' tr, keystone_handle_irq (Some 0%nat) 64 w = Some (tt, w', tr) ∧
            confined w base0 w' tr) ∧
  (∃ r tr, keystone_get_time (Some 0%nat) w = Some (r, w, tr) ∧
           confined w base0 w tr) ∧
  (∃ r, keystone_get_nth_irq (Some 0%nat) 0 w = Some (r, w, [])).
Proof.
  apply (driver_ops_confined (board2 quiet_map quiet_map) 0
           {| hw := base0; irq := 64 |} quiet_map 1000000
           TCR_ENAMODE_PERIODIC_MASK 64 0).
  exists (bound_pstimer 0), 0%nat. repeat split; vm_compute; reflexivity.
Defined.

(** X2.  Which registers each function can change.  [stop] and [start]
    change the control register only; [handle_irq] changes the interrupt
    control/status register only; an arming call changes only the
    control, counter, period and interrupt control/status registers (and
    nothing at all when it returns [EINVAL]); [reset] changes only the
    control, global control, counter and interrupt control/status
    registers, so the period registers survive a reset. *)
Theorem driver_ops_register_frame w timer k m ns tcrFlags i :
  handle_ok w timer k m →
  (∃ w' tr m', keystone_timer_stop (Some timer) w = Some (0, w', tr) ∧
               mem w' !! hw k = Some m' ∧ keeps [TCR] m m') ∧
  (∃ w' tr m', keystone_timer_start (Some timer) w = Some (0, w', tr) ∧
               mem w' !! hw k = Some m' ∧ keeps [TCR] m m') ∧
  (∃ w' tr m', keystone_handle_irq (Some timer) i w = Some (tt, w', tr) ∧
               mem w' !! hw k = Some m' ∧ keeps [INTCTLSTAT] m m') ∧
  (∃ r w' tr m', keystone_set_timeo (Some timer) ns tcrFlags w = Some (r, w', tr) ∧
                 mem w' !! hw k = Some m' ∧
                 keeps [TCR; CNTLO; CNTHI; PRDLO; PRDHI; INTCTLSTAT] m m' ∧
                 (r = EINVAL → m' = m)) ∧
  (∃ w' tr m', keystone_timer_reset (Some timer) w = Some (tt, w', tr) ∧
               mem w' !! hw k = Some m' ∧
               keeps [TCR; TGCR; CNTLO; CNTHI; INTCTLSTAT] m m').
Proof.
  intros Hok. pose proof (handle_ok_mem _ _ _ _ Hok) as Hm.
  repeat apply conj.
  - eexists _, _, _. split; [exact (keystone_timer_stop_run _ _ _ _ Hok)|].
    split; [apply mem_dev_eq|].
    repeat (apply keeps_set_reg; [set_solver|]). apply keeps_refl.
  - eexists _, _, _. split; [exact (keystone_timer_start_run _ _ _ _ Hok)|].
    split; [apply mem_dev_eq|].
    repeat (apply keeps_set_reg; [set_solver|]). apply keeps_refl.
  - eexists _, _, _. split; [exact (keystone_handle_irq_run _ _ _ _ _ Hok)|].
    split; [apply mem_dev_eq|].
    repeat (apply keeps_set_reg; [set_solver|]). apply keeps_refl.
  - destruct (Z.lt_ge_cases (TIMER_INTERVAL_TICKS ns) 2) as [Hlt|Hge].
    + eexists _, _, _, _.
      split; [exact (keystone_set_timeo_reject _ _ _ _ _ _ Hok Hlt)|].
      split; [exact Hm|]. split; [apply keeps_refl|done].
    + eexists _, _, _, _.
      split; [exact (keystone_set_timeo_run _ _ _ _ _ _ Hok Hge)|].
      split; [apply mem_dev_eq|]. split; [|discriminate].
      repeat (apply keeps_set_reg; [set_solver|]). apply keeps_refl.
  - eexists _, _, _. split; [exact (keystone_timer_reset_run _ _ _ _ Hok)|].
    split; [apply mem_dev_eq|].
    repeat (apply keeps_set_reg; [set_solver|]). apply keeps_refl.
Qed.

Lemma driver_ops_register_frame_witness :
  (∃ w' tr m', keystone_timer_stop (Some 0%nat) (bound_world quiet_map)
                 = Some (0, w', tr) ∧
               mem w' !! base0 = Some m' ∧ keeps [TCR] quiet_map m') ∧
  (∃ w' tr m', keystone_timer_start (Some 0%nat) (bound_world quiet_map)
                 = Some (0, w', tr) ∧
               mem w' !! base0 = Some m' ∧ keeps [TCR] quiet_map m') ∧
  (∃ w' tr m', keystone_handle_irq (Some 0%nat) 64 (bound_world quiet_map)
                 = Some (tt, w', tr) ∧
               mem w' !! base0 = Some m' ∧ keeps [INTCTLSTAT] quiet_map m') ∧
  (∃ r w' tr m', keystone_set_timeo (Some 0%nat) 1000000 TCR_ENAMODE_ONESHOT_MASK
                   (bound_world quiet_map) = Some (r, w', tr) ∧
                 mem w' !! base0 = Some m' ∧
                 keeps [TCR; CNTLO; CNTHI; PRDLO; PRDHI; INTCTLSTAT] quiet_map m' ∧
                 (r = EINVAL → m' = quiet_map)) ∧
  (∃ w' tr m', keystone_timer_reset (Some 0%nat) (bound_world quiet_map)
                 = Some (tt, w', tr) ∧
               mem w' !! base0 = Some m' ∧
               keeps [TCR; TGCR; CNTLO; CNTHI; INTCTLSTAT] quiet_map m').
Proof.
  apply (driver_ops_register_frame (bound_world quiet_map) 0
           {| hw := base0; irq := 64 |} quiet_map 1000000
           TCR_ENAMODE_ONESHOT_MASK 64).
  exists (bound_pstimer 0), 0%nat. repeat split; vm_compute; reflexivity.
Defined.

(** ** The control register under [stop], [start] and arming *)

Lemma mask_complement_u32 : to_u32 (to_u32 (Z.lnot TCR_ENAMODE_MASK)) = to_u32 (Z.lnot TCR_ENAMODE_MASK).
Proof. apply to_u32_idem. Qed.

Lemma off_value_keeps_rest t :
  Z.land (to_u32 (Z.land t (to_u32 (Z.lnot TCR_ENAMODE_MASK))))
         (to_u32 (Z.lnot TCR_ENAMODE_MASK)) =
  Z.land t (to_u32 (Z.lnot TCR_ENAMODE_MASK)).
Proof.
  set (M := to_u32 (Z.lnot TCR_ENAMODE_MASK)).
  rewrite <- to_u32_land_l, <- Z.land_assoc, Z.land_diag, to_u32_land_r.
  subst M. by rewrite mask_complement_u32.
Qed.

Lemma or_value_keeps_rest t f :
  Z.land (to_u32 f) (to_u32 (Z.lnot TCR_ENAMODE_MASK)) = 0 →
  Z.land (to_u32 (Z.lor t (to_u32 f))) (to_u32 (Z.lnot TCR_ENAMODE_MASK)) =
  Z.land t (to_u32 (Z.lnot TCR_ENAMODE_MASK)).
Proof.
  intros Hf. set (M := to_u32 (Z.lnot TCR_ENAMODE_MASK)) in *.
  rewrite <- to_u32_land_l, Z.land_lor_distr_l, Hf, Z.lor_0_r, to_u32_land_r.
  subst M. by rewrite mask_complement_u32.
Qed.

Lemma or_value_mode t f :
  Z.land t TCR_ENAMODE_MASK = 0 →
  Z.land (to_u32 (Z.lor t (to_u32 f))) TCR_ENAMODE_MASK =
  Z.land (to_u32 f) TCR_ENAMODE_MASK.
Proof.
  intros Ht.
  rewrite <- to_u32_land_l, Z.land_lor_distr_l, Ht, Z.lor_0_l.
  rewrite to_u32_land_l, to_u32_idem. reflexivity.
Qed.

Lemma stop_after_start_value t :
  to_u32 (Z.land (to_u32 (Z.lor t (to_u32 TCR_ENAMODE_MASK)))
                 (to_u32 (Z.lnot TCR_ENAMODE_MASK))) =
  to_u32 (Z.land t (to_u32 (Z.lnot TCR_ENAMODE_MASK))).
Proof. by rewrite or_value_keeps_rest. Qed.

Lemma start_after_stop_value t :
  to_u32 (Z.lor (to_u32 (Z.land t (to_u32 (Z.lnot TCR_ENAMODE_MASK))))
                (to_u32 TCR_ENAMODE_MASK)) =
  to_u32 (Z.lor t (to_u32 TCR_ENAMODE_MASK)).
Proof.
  rewrite !to_u32_lor, to_u32_idem, to_u32_land_l, !to_u32_ones.
  change (Z.land (Z.lnot TCR_ENAMODE_MASK) (Z.ones 32))
    with (Z.ldiff (Z.ones 32) TCR_ENAMODE_MASK).
  change (Z.land (Z.land TCR_ENAMODE_MASK (Z.ones 32)) (Z.ones 32))
    with TCR_ENAMODE_MASK.
  apply Z.bits_inj'. intros n Hn.
  rewrite !Z.lor_spec, !Z.land_spec, Z.ldiff_spec.
  by destruct (Z.testbit t n), (Z.testbit (Z.ones 32) n),
              (Z.testbit TCR_ENAMODE_MASK n).
Qed.

(** X3.  [stop], [start] and an arming call in either mode keep every
    bit of the control register outside the enable-mode field; and when
    the enable-mode field was clear before an arming call, the field
    holds exactly the requested mode afterwards. *)
Theorem control_register_fields w timer k m ns tcrFlags :
  handle_ok w timer k m →
  tcrFlags = TCR_ENAMODE_ONESHOT_MASK ∨ tcrFlags = TCR_ENAMODE_PERIODIC_MASK →
  2 ≤ TIMER_INTERVAL_TICKS ns →
  (∃ w' tr m', keystone_timer_stop (Some timer) w = Some (0, w', tr) ∧
               mem w' !! hw k = Some m' ∧
               Z.land (tcr m') (to_u32 (Z.lnot TCR_ENAMODE_MASK)) =
               Z.land (tcr m) (to_u32 (Z.lnot TCR_ENAMODE_MASK))) ∧
  (∃ w' tr m', keystone_timer_start (Some timer) w = Some (0, w', tr) ∧
               mem w' !! hw k = Some m' ∧
               Z.land (tcr m') (to_u32 (Z.lnot TCR_ENAMODE_MASK)) =
               Z.land (tcr m) (to_u32 (Z.lnot TCR_ENAMODE_MASK))) ∧
  (∃ w' tr m', keystone_set_timeo (Some timer) ns tcrFlags w = Some (0, w', tr) ∧
               mem w' !! hw k = Some m' ∧
               Z.land (tcr m') (to_u32 (Z.lnot TCR_ENAMODE_MASK)) =
               Z.land (tcr m) (to_u32 (Z.lnot TCR_ENAMODE_MASK)) ∧
               (Z.land (tcr m) TCR_ENAMODE_MASK = 0 →
                Z.land (tcr m') TCR_ENAMODE_MASK = tcrFlags)).
Proof.
  intros Hok Hf Hge. repeat apply conj.
  - eexists _, _, _. split; [exact (keystone_timer_stop_run _ _ _ _ Hok)|].
    split; [apply mem_dev_eq|]. destruct m. simpl. apply off_value_keeps_rest.
  - eexists _, _, _. split; [exact (keystone_timer_start_run _ _ _ _ Hok)|].
    split; [apply mem_dev_eq|]. destruct m. simpl.
    by apply or_value_keeps_rest.
  - eexists _, _, _. split; [exact (keystone_set_timeo_run _ _ _ _ _ _ Hok Hge)|].
    split; [apply mem_dev_eq|]. destruct m. simpl. split.
    + apply or_value_keeps_rest. by destruct Hf as [-> | ->].
    + intros Hc. rewrite or_value_mode by done. by destruct Hf as [-> | ->].
Qed.

Lemma control_register_fields_witness :
  let m := Build_map 0 0 0 0 0 0x105 3 0 0 0 0 0 1 in
  (∃ w' tr m', keystone_timer_stop (Some 0%nat) (bound_world m) = Some (0, w', tr) ∧
               mem w' !! base0 = Some m' ∧
               Z.land (tcr m') (to_u32 (Z.lnot TCR_ENAMODE_MASK)) =
               Z.land (tcr m) (to_u32 (Z.lnot TCR_ENAMODE_MASK))) ∧
  (∃ w' tr m', keystone_timer_start (Some 0%nat) (bound_world m) = Some (0, w', tr) ∧
               mem w' !! base0 = Some m' ∧
               Z.land (tcr m') (to_u32 (Z.lnot TCR_ENAMODE_MASK)) =
               Z.land (tcr m) (to_u32 (Z.lnot TCR_ENAMODE_MASK))) ∧
  (∃ w' tr m', keystone_set_timeo (Some 0%nat) 1000000 TCR_ENAMODE_ONESHOT_MASK
                 (bound_world m) = Some (0, w', tr) ∧
               mem w' !! base0 = Some m' ∧
               Z.land (tcr m') (to_u32 (Z.lnot TCR_ENAMODE_MASK)) =
               Z.land (tcr m) (to_u32 (Z.lnot TCR_ENAMODE_MASK)) ∧
               (Z.land (tcr m) TCR_ENAMODE_MASK = 0 →
                Z.land (tcr m') TCR_ENAMODE_MASK = TCR_ENAMODE_ONESHOT_MASK)).
Proof.
  apply (control_register_fields
           (bound_world (Build_map 0 0 0 0 0 0x105 3 0 0 0 0 0 1)) 0
           {| hw := base0; irq := 64 |}
           (Build_map 0 0 0 0 0 0x105 3 0 0 0 0 0 1) 1000000
           TCR_ENAMODE_ONESHOT_MASK).
  - exists (bound_pstimer 0), 0%nat. repeat split; vm_compute; reflexivity.
  - left. reflexivity.
  - vm_compute. discriminate.
Defined.

(** X4.  [stop] absorbs a preceding [start] and [start] absorbs a
    preceding [stop]: the state after [start; stop] is the state after
    [stop] alone, and the state after [stop; start] is the state after
    [start] alone.  In particular [stop; start] does not bring back the
    mode that was armed: the field ends as the full mask. *)
Theorem start_stop_absorb w timer k m :
  handle_ok w timer k m →
  (∃ w' t1 t2,
     keystone_timer_stop (Some timer) w = Some (0, w', t1) ∧
     (keystone_timer_start (Some timer);; keystone_timer_stop (Some timer)) w
       = Some (0, w', t2)) ∧
  (∃ w' t1 t2 m',
     keystone_timer_start (Some timer) w = Some (0, w', t1) ∧
     (keystone_timer_stop (Some timer);; keystone_timer_start (Some timer)) w
       = Some (0, w', t2) ∧
     mem w' !! hw k = Some m' ∧
     Z.land (tcr m') TCR_ENAMODE_MASK = TCR_ENAMODE_MASK).
Proof.
  intros Hok. split.
  - eexists _, _, _. split; [exact (keystone_timer_stop_run _ _ _ _ Hok)|].
    rewrite bind_run, (keystone_timer_start_run _ _ _ _ Hok).
    set (m1 := set_reg TCR _ m).
    rewrite (keystone_timer_stop_run _ _ k m1)
      by exact (handle_ok_dev _ _ _ _ _ Hok).
    rewrite dev_dev. f_equal. f_equal. f_equal. f_equal.
    subst m1. destruct m. simpl. by rewrite stop_after_start_value.
  - eexists _, _, _, _. split; [exact (keystone_timer_start_run _ _ _ _ Hok)|].
    rewrite bind_run, (keystone_timer_stop_run _ _ _ _ Hok).
    set (m1 := set_reg TCR _ m).
    rewrite (keystone_timer_start_run _ _ k m1)
      by exact (handle_ok_dev _ _ _ _ _ Hok).
    rewrite dev_dev. split; [|split; [apply mem_dev_eq|]].
    + f_equal. f_equal. f_equal. f_equal.
      subst m1. destruct m. simpl. by rewrite start_after_stop_value.
    + destruct m. simpl.
      rewrite <- to_u32_land_l, Z.land_lor_distr_l, to_u32_lor.
      change (to_u32 (Z.land (to_u32 TCR_ENAMODE_MASK) TCR_ENAMODE_MASK))
        with TCR_ENAMODE_MASK.
      rewrite to_u32_land_r. change (to_u32 TCR_ENAMODE_MASK) with TCR_ENAMODE_MASK.
      apply Z.bits_inj'. intros n Hn.
      rewrite Z.lor_spec, Z.land_spec. by destruct (Z.testbit _ n), (Z.testbit _ n).
Qed.

Lemma start_stop_absorb_witness :
  let w := bound_world (Build_map 0 0 0 0 0 0x80 3 0 0 0 0 0 1) in
  (∃ w' t1 t2,
     keystone_timer_stop (Some 0%nat) w = Some (0, w', t1) ∧
     (keystone_timer_start (Some 0%nat);; keystone_timer_stop (Some 0%nat)) w
       = Some (0, w', t2)) ∧
  (∃ w' t1 t2 m',
     keystone_timer_start (Some 0%nat) w = Some (0, w', t1) ∧
     (keystone_timer_stop (Some 0%nat);; keystone_timer_start (Some 0%nat)) w
       = Some (0, w', t2) ∧
     mem w' !! base0 = Some m' ∧
     Z.land (tcr m') TCR_ENAMODE_MASK = TCR_ENAMODE_MASK).
Proof.
  apply (start_stop_absorb
           (bound_world (Build_map 0 0 0 0 0 0x80 3 0 0 0 0 0 1)) 0
           {| hw := base0; irq := 64 |}
           (Build_map 0 0 0 0 0 0x80 3 0 0 0 0 0 1)).
  exists (bound_pstimer 0), 0%nat. repeat split; vm_compute; reflexivity.
Defined.

(** X5.  Arming after [stop] selects exactly the requested mode,
    whatever the control register held before: the last access of
    [stop; set_timeo] is a control write whose enable-mode field is the
    requested mode, and the register holds that value afterwards. *)
Theorem arm_after_stop_selects_mode w timer k m ns tcrFlags :
  handle_ok w timer k m →
  tcrFlags = TCR_ENAMODE_ONESHOT_MASK ∨ tcrFlags = TCR_ENAMODE_PERIODIC_MASK →
  2 ≤ TIMER_INTERVAL_TICKS ns →
  ∃ w' tr m' v,
    (keystone_timer_stop (Some timer);;
     keystone_set_timeo (Some timer) ns tcrFlags) w = Some (0, w', tr) ∧
    last tr = Some (Write (hw k) TCR v) ∧
    Z.land v TCR_ENAMODE_MASK = tcrFlags ∧
    mem w' !! hw k = Some m' ∧ tcr m' = v.
Proof.
  intros Hok Hf Hge.
  eexists _, _, _, _.
  rewrite bind_run, (keystone_timer_stop_run _ _ _ _ Hok).
  set (m1 := set_reg TCR _ m).
  rewrite (keystone_set_timeo_run _ _ k m1)
    by (exact (handle_ok_dev _ _ _ _ _ Hok) || done).
  rewrite dev_dev. split; [reflexivity|]. split; [reflexivity|].
  split; [|split; [apply mem_dev_eq|by destruct m]].
  subst m1. destruct m. simpl.
  rewrite or_value_mode by apply off_value_disabled.
  by destruct Hf as [-> | ->].
Qed.

Lemma arm_after_stop_selects_mode_witness :
  let w := bound_world (Build_map 0 0 0 0 0 0x80 3 0 0 0 0 0 1) in
  ∃ w' tr m' v,
    (keystone_timer_stop (Some 0%nat);;
     keystone_set_timeo (Some 0%nat) 1000000 TCR_ENAMODE_ONESHOT_MASK) w
      = Some (0, w', tr) ∧
    last tr = Some (Write base0 TCR v) ∧
    Z.land v TCR_ENAMODE_MASK = TCR_ENAMODE_ONESHOT_MASK ∧
    mem w' !! base0 = Some m' ∧ tcr m' = v.
Proof.
  apply (arm_after_stop_selects_mode
           (bound_world (Build_map 0 0 0 0 0 0x80 3 0 0 0 0 0 1)) 0
           {| hw := base0; irq := 64 |}
           (Build_map 0 0 0 0 0 0x80 3 0 0 0 0 0 1) 1000000
           TCR_ENAMODE_ONESHOT_MASK).
  - exists (bound_pstimer 0), 0%nat. repeat split; vm_compute; reflexivity.
  - left. reflexivity.
  - vm_compute. discriminate.
Defined.

(** ** The conversion and the programmed period *)

Lemma ticks_reference_bounds ns :
  0 ≤ ns →
  0 ≤ ticks_reference ns ∧
  ticks_reference ns * 1000000000 ≤ ns * TICKS_PER_SECOND
    < (ticks_reference ns + 1) * 1000000000.
Proof.
  intros H. unfold ticks_reference, TICKS_PER_SECOND.
  pose proof (Z.mul_div_le (ns * 204800000) 1000000000) as H1.
  pose proof (Z.mul_succ_div_gt (ns * 204800000) 1000000000) as H2.
  split; [apply Z.div_pos; lia|]. lia.
Qed.

Lemma ticks_below_2_iff ns :
  0 ≤ ns < 20971520000 → TIMER_INTERVAL_TICKS ns < 2 ↔ ns < 10.
Proof.
  intros H. destruct (ticks_exact ns H) as (_ & _ & ->).
  pose proof (ticks_reference_bounds ns) as Hb.
  unfold TICKS_PER_SECOND in Hb. lia.
Qed.

(** X6.  On the inputs below 20 971 520 000 ns the conversion rounds
    down to whole ticks (the period is never longer than the requested
    time, and less than one tick shorter), it is monotone, and it is
    below the minimum of 2 ticks exactly for [ns < 10]. *)
Theorem ticks_round_down_monotone ns1 ns2 :
  0 ≤ ns1 → ns1 ≤ ns2 → ns2 < 20971520000 →
  TIMER_INTERVAL_TICKS ns1 * 1000000000 ≤ ns1 * TICKS_PER_SECOND
    < (TIMER_INTERVAL_TICKS ns1 + 1) * 1000000000 ∧
  TIMER_INTERVAL_TICKS ns1 ≤ TIMER_INTERVAL_TICKS ns2 ∧
  (TIMER_INTERVAL_TICKS ns1 < 2 ↔ ns1 < 10).
Proof.
  intros H0 H12 H2.
  destruct (ticks_exact ns1) as (_ & _ & E1); [lia|].
  destruct (ticks_exact ns2) as (_ & _ & E2); [lia|].
  rewrite E1, E2.
  pose proof (ticks_reference_bounds ns1 H0) as [_ Hb].
  split; [exact Hb|]. split.
  - unfold ticks_reference, TICKS_PER_SECOND.
    apply Z.div_le_mono; lia.
  - rewrite <- E1. apply ticks_below_2_iff. lia.
Qed.

Lemma ticks_round_down_monotone_witness :
  TIMER_INTERVAL_TICKS 9 * 1000000000 ≤ 9 * TICKS_PER_SECOND
    < (TIMER_INTERVAL_TICKS 9 + 1) * 1000000000 ∧
  TIMER_INTERVAL_TICKS 9 ≤ TIMER_INTERVAL_TICKS 1000000 ∧
  (TIMER_INTERVAL_TICKS 9 < 2 ↔ 9 < 10).
Proof. apply (ticks_round_down_monotone 9 1000000); lia. Defined.

(** X7.  As long as the 64-bit product does not overflow (up to about
    90 s) the computed count is the exact quotient reduced modulo 2^32;
    hence two such inputs 20 971 520 000 ns apart get the same count. *)
Theorem ticks_wrap_every_2p32 ns :
  0 ≤ ns → (ns + 20971520000) * TICKS_PER_SECOND < 2 ^ 64 →
  TIMER_INTERVAL_TICKS ns = ticks_reference ns mod 2 ^ 32 ∧
  TIMER_INTERVAL_TICKS (ns + 20971520000) =
    ticks_reference (ns + 20971520000) mod 2 ^ 32 ∧
  TIMER_INTERVAL_TICKS (ns + 20971520000) = TIMER_INTERVAL_TICKS ns.
Proof.
  intros H0 Hp. unfold TICKS_PER_SECOND in Hp.
  assert (F : ∀ x, 0 ≤ x → x * 204800000 < 2 ^ 64 →
              TIMER_INTERVAL_TICKS x = ticks_reference x mod 2 ^ 32).
  { intros x Hx Hxp. rewrite ticks_unfold by lia.
    unfold to_u64, TICKS_PER_SECOND. rewrite Z.mod_small by lia. reflexivity. }
  rewrite !F by lia. repeat split.
  unfold ticks_reference, TICKS_PER_SECOND.
  replace ((ns + 20971520000) * 204800000)
    with (ns * 204800000 + 2 ^ 32 * 1000000000) by lia.
  rewrite Z.div_add by lia.
  rewrite <- Zplus_mod_idemp_r, Z.mod_same by lia. by rewrite Z.add_0_r.
Qed.

Lemma ticks_wrap_every_2p32_witness :
  TIMER_INTERVAL_TICKS 1000000000 = ticks_reference 1000000000 mod 2 ^ 32 ∧
  TIMER_INTERVAL_TICKS (1000000000 + 20971520000) =
    ticks_reference (1000000000 + 20971520000) mod 2 ^ 32 ∧
  TIMER_INTERVAL_TICKS (1000000000 + 20971520000) = TIMER_INTERVAL_TICKS 1000000000.
Proof.
  apply (ticks_wrap_every_2p32 1000000000); [lia|].
  vm_compute. reflexivity.
Defined.

(** X8.  For [10 <= ns < 20 971 520 000] an arming call succeeds and
    leaves the block with the counter at zero, the period registers
    holding the exact tick count (period-high 0), and the acknowledge
    pattern in the interrupt control/status register. *)
Theorem arm_programs_exact_period w timer k m ns tcrFlags :
  handle_ok w timer k m →
  10 ≤ ns → ns < 20971520000 →
  ∃ w' tr m',
    keystone_set_timeo (Some timer) ns tcrFlags w = Some (0, w', tr) ∧
    mem w' !! hw k = Some m' ∧
    cntlo m' = 0 ∧ cnthi m' = 0 ∧
    prdlo m' = ticks_reference ns ∧ prdhi m' = 0 ∧ 2 ≤ prdlo m' ∧
    intctlstat m' = INTCTLSTAT_ACK_MASK.
Proof.
  intros Hok Hlo Hhi.
  pose proof (ticks_below_2_iff ns) as Ht.
  assert (Hge : 2 ≤ TIMER_INTERVAL_TICKS ns) by lia.
  destruct (ticks_exact ns) as (_ & _ & E); [lia|].
  destruct (ticks_split ns) as [Hl Hh].
  eexists _, _, _.
  split; [exact (keystone_set_timeo_run _ _ _ _ _ _ Hok Hge)|].
  split; [apply mem_dev_eq|].
  destruct m. simpl. rewrite Hl, Hh, <- E. repeat split; done.
Qed.

Lemma arm_programs_exact_period_witness :
  ∃ w' tr m',
    keystone_set_timeo (Some 0%nat) 10 TCR_ENAMODE_PERIODIC_MASK
      (bound_world quiet_map) = Some (0, w', tr) ∧
    mem w' !! base0 = Some m' ∧
    cntlo m' = 0 ∧ cnthi m' = 0 ∧
    prdlo m' = ticks_reference 10 ∧ prdhi m' = 0 ∧ 2 ≤ prdlo m' ∧
    intctlstat m' = INTCTLSTAT_ACK_MASK.
Proof.
  apply (arm_programs_exact_period (bound_world quiet_map) 0
           {| hw := base0; irq := 64 |} quiet_map 10 TCR_ENAMODE_PERIODIC_MASK).
  - exists (bound_pstimer 0), 0%nat. repeat split; vm_compute; reflexivity.
  - lia.
  - lia.
Defined.

(** ** The factory, once more *)

Lemma reset_block_idem m :
  let R := λ m, set_reg INTCTLSTAT INTCTLSTAT_ENINT_MASK
                  (set_reg CNTHI 0 (set_reg CNTLO 0
                     (set_reg TGCR TGCR_TIM_UNRESET_MASK
                        (set_reg TGCR 0 (set_reg TCR 0 m))))) in
  R (R m) = R m.
Proof. by destruct m. Qed.

(** X9.  [reset] is idempotent, and so is the factory: asking for the
    same [id] with the same configuration a second time returns the same
    handle and leaves the pools and the device memory exactly as the
    first call left them. *)
Theorem factory_and_reset_idempotent NTIMERS w timer k m w0 id c m0 :
  handle_ok w timer k m →
  (id < NTIMERS)%nat →
  length (timers w0) = NTIMERS → length (kts w0) = NTIMERS →
  mem w0 !! vaddr c = Some m0 →
  (∃ w1 t1 t2,
     keystone_timer_reset (Some timer) w = Some (tt, w1, t1) ∧
     keystone_timer_reset (Some timer) w1 = Some (tt, w1, t2)) ∧
  (∃ w1 t1 t2,
     ps_get_timer NTIMERS id (Some c) w0 = Some (Some id, w1, t1) ∧
     ps_get_timer NTIMERS id (Some c) w1 = Some (Some id, w1, t2)).
Proof.
  intros Hok Hid Hts Hks Hm0. split.
  - eexists _, _, _. split; [exact (keystone_timer_reset_run _ _ _ _ Hok)|].
    set (m1 := set_reg INTCTLSTAT _ _).
    rewrite (keystone_timer_reset_run _ _ k m1)
      by exact (handle_ok_dev _ _ _ _ _ Hok).
    rewrite dev_dev. subst m1. by rewrite (reset_block_idem m).
  - eexists _, _, _.
    split; [exact (ps_get_timer_run _ _ _ _ _ Hid Hts Hks Hm0)|].
    set (m1 := set_reg INTCTLSTAT _ _).
    rewrite (ps_get_timer_run NTIMERS _ id c m1); try done.
    + unfold dev, with_mem, with_kts, with_timers. simpl.
      rewrite !list_insert_insert_eq, insert_insert_eq.
      subst m1. by rewrite (reset_block_idem m0).
    + simpl. by rewrite length_insert.
    + simpl. by rewrite length_insert.
    + apply mem_dev_eq.
Qed.

Lemma factory_and_reset_idempotent_witness :
  (∃ w1 t1 t2,
     keystone_timer_reset (Some 0%nat) (bound_world quiet_map) = Some (tt, w1, t1) ∧
     keystone_timer_reset (Some 0%nat) w1 = Some (tt, w1, t2)) ∧
  (∃ w1 t1 t2,
     ps_get_timer 1 0 (Some cfg0) (fresh_world quiet_map) = Some (Some 0%nat, w1, t1) ∧
     ps_get_timer 1 0 (Some cfg0) w1 = Some (Some 0%nat, w1, t2)).
Proof.
  apply (factory_and_reset_idempotent 1 (bound_world quiet_map) 0
           {| hw := base0; irq := 64 |} quiet_map
           (fresh_world quiet_map) 0 cfg0 quiet_map).
  - exists (bound_pstimer 0), 0%nat. repeat split; vm_compute; reflexivity.
  - lia.
  - reflexivity.
  - reflexivity.
  - vm_compute. reflexivity.
Defined.

(** X10.  Obtaining timer [id] keeps the length of both pools, leaves
    every other slot of both pools and every block other than the
    configured one as they were, and so leaves a handle obtained earlier
    for another [id] over another block valid, with its block
    untouched. *)
Theorem factory_leaves_others NTIMERS w id c m :
  (id < NTIMERS)%nat →
  length (timers w) = NTIMERS → length (kts w) = NTIMERS →
  mem w !! vaddr c = Some m →
  ∃ w' tr,
    ps_get_timer NTIMERS id (Some c) w = Some (Some id, w', tr) ∧
    length (timers w') = NTIMERS ∧ length (kts w') = NTIMERS ∧
    (∀ j, j ≠ id → timers w' !! j = timers w !! j ∧ kts w' !! j = kts w !! j) ∧
    (∀ b, b ≠ vaddr c → mem w' !! b = mem w !! b) ∧
    (∀ j t kt k2 m2,
       j ≠ id → timers w !! j = Some t → data t = Some kt → kt ≠ id →
       kts w !! kt = Some k2 → mem w !! hw k2 = Some m2 → hw k2 ≠ vaddr c →
       handle_ok w' j k2 m2).
Proof.
  intros Hid Hts Hks Hm.
  eexists _, _. split; [exact (ps_get_timer_run _ _ _ _ _ Hid Hts Hks Hm)|].
  simpl. rewrite !length_insert. repeat split; try done.
  - by apply list_lookup_insert_ne.
  - by apply list_lookup_insert_ne.
  - intros b Hb. by apply lookup_insert_ne.
  - intros j t kt k2 m2 Hj Ht Hd Hkt Hk Hm2 Hne.
    exists t, kt. simpl.
    rewrite !list_lookup_insert_ne by done.
    rewrite lookup_insert_ne by done. done.
Qed.

Lemma factory_leaves_others_witness :
  ∃ w' tr,
    ps_get_timer 2 1 (Some cfg1) (board2 quiet_map quiet_map)
      = Some (Some 1%nat, w', tr) ∧
    length (timers w') = 2%nat ∧ length (kts w') = 2%nat ∧
    (∀ j, j ≠ 1%nat →
       timers w' !! j = timers (board2 quiet_map quiet_map) !! j ∧
       kts w' !! j = kts (board2 quiet_map quiet_map) !! j) ∧
    (∀ b, b ≠ base1 → mem w' !! b = mem (board2 quiet_map quiet_map) !! b) ∧
    (∀ j t kt k2 m2,
       j ≠ 1%nat → timers (board2 quiet_map quiet_map) !! j = Some t →
       data t = Some kt → kt ≠ 1%nat →
       kts (board2 quiet_map quiet_map) !! kt = Some k2 →
       mem (board2 quiet_map quiet_map) !! hw k2 = Some m2 → hw k2 ≠ base1 →
       handle_ok w' j k2 m2).
Proof.
  apply (factory_leaves_others 2 (board2 quiet_map quiet_map) 1 cfg1 quiet_map).
  - lia.
  - reflexivity.
  - reflexivity.
  - vm_compute. reflexivity.
Defined.

(** X11.  For every valid [id] the slot behind the returned handle
    carries the same capability descriptor: a down counter with relative
    and periodic timeouts, no absolute timeouts, 32 bits, one interrupt
    line; its absolute one-shot entry is the stub and its [data] points
    to [kts[id]]. *)
Theorem factory_capabilities NTIMERS w id c m :
  (id < NTIMERS)%nat →
  length (timers w) = NTIMERS → length (kts w) = NTIMERS →
  mem w !! vaddr c = Some m →
  ∃ w' tr t,
    ps_get_timer NTIMERS id (Some c) w = Some (Some id, w', tr) ∧
    timers w' !! id = Some t ∧
    properties t =
      {| upcounter := false; timeouts := true; relative_timeouts := true;
         periodic_timeouts := true; absolute_timeouts := false;
         bit_width := 32; irqs := 1 |} ∧
    oneshot_absolute t = fn_stub_timer_timeout ∧
    oneshot_relative t = fn_keystone_oneshot_relative ∧
    periodic t = fn_keystone_periodic ∧
    data t = Some id.
Proof.
  intros Hid Hts Hks Hm.
  eexists _, _, _. split; [exact (ps_get_timer_run _ _ _ _ _ Hid Hts Hks Hm)|].
  simpl. rewrite list_lookup_insert_eq by lia. done.
Qed.

Lemma factory_capabilities_witness :
  ∃ w' tr t,
    ps_get_timer 2 1 (Some cfg1) (board2 quiet_map quiet_map)
      = Some (Some 1%nat, w', tr) ∧
    timers w' !! 1%nat = Some t ∧
    properties t =
      {| upcounter := false; timeouts := true; relative_timeouts := true;
         periodic_timeouts := true; absolute_timeouts := false;
         bit_width := 32; irqs := 1 |} ∧
    oneshot_absolute t = fn_stub_timer_timeout ∧
    oneshot_relative t = fn_keystone_oneshot_relative ∧
    periodic t = fn_keystone_periodic ∧
    data t = Some 1%nat.
Proof.
  apply (factory_capabilities 2 (board2 quiet_map quiet_map) 1 cfg1 quiet_map).
  - lia.
  - reflexivity.
  - reflexivity.
  - vm_compute. reflexivity.
Defined.

(** ** Interrupt acknowledge, counter read, and the two modes *)

(** X12.  [handle_irq] ignores its [irq] argument; its only access is
    one store of the acknowledge pattern to the interrupt control/status
    register; the pattern contains the interrupt-enable bit, so
    acknowledging never disables the timer interrupt; and acknowledging
    twice leaves the state as acknowledging once. *)
Theorem handle_irq_acknowledge w timer k m i1 i2 :
  handle_ok w timer k m →
  ∃ w' m',
    keystone_handle_irq (Some timer) i1 w =
      Some (tt, w', [Write (hw k) INTCTLSTAT INTCTLSTAT_ACK_MASK]) ∧
    keystone_handle_irq (Some timer) i2 w =
      Some (tt, w', [Write (hw k) INTCTLSTAT INTCTLSTAT_ACK_MASK]) ∧
    mem w' !! hw k = Some m' ∧
    intctlstat m' = INTCTLSTAT_ACK_MASK ∧
    Z.land (intctlstat m') INTCTLSTAT_ENINT_MASK = INTCTLSTAT_ENINT_MASK ∧
    keystone_handle_irq (Some timer) i1 w' =
      Some (tt, w', [Write (hw k) INTCTLSTAT INTCTLSTAT_ACK_MASK]).
Proof.
  intros Hok. eexists _, _.
  split; [exact (keystone_handle_irq_run _ _ _ _ i1 Hok)|].
  split; [exact (keystone_handle_irq_run _ _ _ _ i2 Hok)|].
  split; [apply mem_dev_eq|].
  split; [by destruct m|]. split; [by destruct m|].
  set (m1 := set_reg INTCTLSTAT _ m).
  rewrite (keystone_handle_irq_run _ _ k m1)
    by exact (handle_ok_dev _ _ _ _ _ Hok).
  rewrite dev_dev. subst m1. by destruct m.
Qed.

Lemma handle_irq_acknowledge_witness :
  ∃ w' m',
    keystone_handle_irq (Some 0%nat) 64 (bound_world quiet_map) =
      Some (tt, w', [Write base0 INTCTLSTAT INTCTLSTAT_ACK_MASK]) ∧
    keystone_handle_irq (Some 0%nat) 7 (bound_world quiet_map) =
      Some (tt, w', [Write base0 INTCTLSTAT INTCTLSTAT_ACK_MASK]) ∧
    mem w' !! base0 = Some m' ∧
    intctlstat m' = INTCTLSTAT_ACK_MASK ∧
    Z.land (intctlstat m') INTCTLSTAT_ENINT_MASK = INTCTLSTAT_ENINT_MASK ∧
    keystone_handle_irq (Some 0%nat) 64 w' =
      Some (tt, w', [Write base0 INTCTLSTAT INTCTLSTAT_ACK_MASK]).
Proof.
  apply (handle_irq_acknowledge (bound_world quiet_map) 0
           {| hw := base0; irq := 64 |} quiet_map 64 7).
  exists (bound_pstimer 0), 0%nat. repeat split; vm_compute; reflexivity.
Defined.

(** X13.  [get_time] makes one read, of counter-low, and no write; it
    leaves the state as it was and returns the value read, so the high
    word of the counter never shows in the result: changing counter-high
    does not change the time returned. *)
Theorem get_time_reads_low_word w timer k m hi :
  handle_ok w timer k m →
  keystone_get_time (Some timer) w =
    Some (cntlo m, w, [Read (hw k) CNTLO (cntlo m)]) ∧
  ∃ w2, keystone_get_time (Some timer) (dev w (hw k) (set_reg CNTHI hi m)) =
          Some (cntlo m, w2, [Read (hw k) CNTLO (cntlo m)]).
Proof.
  intros Hok. split; [exact (keystone_get_time_run _ _ _ _ Hok)|].
  eexists.
  rewrite (keystone_get_time_run _ _ k (set_reg CNTHI hi m))
    by exact (handle_ok_dev _ _ _ _ _ Hok).
  by destruct m.
Qed.

Lemma get_time_reads_low_word_witness :
  let m := Build_map 0 1234 0 204800 0 0x80 3 0 0 0 0 0 1 in
  keystone_get_time (Some 0%nat) (bound_world m) =
    Some (cntlo m, bound_world m, [Read base0 CNTLO (cntlo m)]) ∧
  ∃ w2, keystone_get_time (Some 0%nat)
          (dev (bound_world m) base0 (set_reg CNTHI 5 m)) =
          Some (cntlo m, w2, [Read base0 CNTLO (cntlo m)]).
Proof.
  apply (get_time_reads_low_word
           (bound_world (Build_map 0 1234 0 204800 0 0x80 3 0 0 0 0 0 1)) 0
           {| hw := base0; irq := 64 |}
           (Build_map 0 1234 0 204800 0 0x80 3 0 0 0 0 0 1) 5).
  exists (bound_pstimer 0), 0%nat. repeat split; vm_compute; reflexivity.
Defined.

(** X14.  [periodic] and [oneshot_relative] with the same [ns] accept
    and reject the same inputs; when they succeed they make the same
    accesses up to the last one, the final control write, and leave
    blocks that agree on every register but the control register. *)
Theorem periodic_oneshot_same_but_mode w timer k m ns :
  handle_ok w timer k m →
  (TIMER_INTERVAL_TICKS ns < 2 →
     keystone_periodic (Some timer) ns w = Some (EINVAL, w, []) ∧
     keystone_oneshot_relative (Some timer) ns w = Some (EINVAL, w, [])) ∧
  (2 ≤ TIMER_INTERVAL_TICKS ns →
     ∃ wp wo pre vp vo mp mo,
       keystone_periodic (Some timer) ns w =
         Some (0, wp, pre ++ [Write (hw k) TCR vp]) ∧
       keystone_oneshot_relative (Some timer) ns w =
         Some (0, wo, pre ++ [Write (hw k) TCR vo]) ∧
       Z.land vp TCR_ENAMODE_PERIODIC_MASK = TCR_ENAMODE_PERIODIC_MASK ∧
       Z.land vo TCR_ENAMODE_ONESHOT_MASK = TCR_ENAMODE_ONESHOT_MASK ∧
       mem wp !! hw k = Some mp ∧ mem wo !! hw k = Some mo ∧
       tcr mp = vp ∧ tcr mo = vo ∧ keeps [TCR] mp mo).
Proof.
  intros Hok. unfold keystone_periodic, keystone_oneshot_relative. split.
  - intros Hlt. split; exact (keystone_set_timeo_reject _ _ _ _ _ _ Hok Hlt).
  - intros Hge.
    eexists _, _, [_; _; _; _; _; _; _; _; _], _, _, _, _.
    split; [exact (keystone_set_timeo_run _ _ _ _ _ _ Hok Hge)|].
    split; [exact (keystone_set_timeo_run _ _ _ _ _ _ Hok Hge)|].
    assert (Hbit : ∀ f, f = TCR_ENAMODE_PERIODIC_MASK ∨ f = TCR_ENAMODE_ONESHOT_MASK →
                        Z.land (to_u32 (Z.lor (tcr m) (to_u32 f))) f = f).
    { intros f Hf. rewrite <- to_u32_land_l, Z.land_lor_distr_l, to_u32_lor.
      replace (to_u32 (Z.land (to_u32 f) f)) with f
        by (by destruct Hf as [-> | ->]).
      rewrite to_u32_land_r.
      replace (to_u32 f) with f by (by destruct Hf as [-> | ->]).
      apply Z.bits_inj'. intros n Hn.
      rewrite Z.lor_spec, Z.land_spec.
      by destruct (Z.testbit _ n), (Z.testbit _ n). }
    split; [apply Hbit; by left|]. split; [apply Hbit; by right|].
    split; [apply mem_dev_eq|]. split; [apply mem_dev_eq|].
    split; [by destruct m|]. split; [by destruct m|].
    intros r Hr. rewrite !(get_set_reg_ne r TCR) by set_solver. reflexivity.
Qed.

Lemma periodic_oneshot_same_but_mode_witness :
  (TIMER_INTERVAL_TICKS 1000000 < 2 →
     keystone_periodic (Some 0%nat) 1000000 (bound_world quiet_map)
       = Some (EINVAL, bound_world quiet_map, []) ∧
     keystone_oneshot_relative (Some 0%nat) 1000000 (bound_world quiet_map)
       = Some (EINVAL, bound_world quiet_map, [])) ∧
  (2 ≤ TIMER_INTERVAL_TICKS 1000000 →
     ∃ wp wo pre vp vo mp mo,
       keystone_periodic (Some 0%nat) 1000000 (bound_world quiet_map) =
         Some (0, wp, pre ++ [Write base0 TCR vp]) ∧
       keystone_oneshot_relative (Some 0%nat) 1000000 (bound_world quiet_map) =
         Some (0, wo, pre ++ [Write base0 TCR vo]) ∧
       Z.land vp TCR_ENAMODE_PERIODIC_MASK = TCR_ENAMODE_PERIODIC_MASK ∧
       Z.land vo TCR_ENAMODE_ONESHOT_MASK = TCR_ENAMODE_ONESHOT_MASK ∧
       mem wp !! base0 = Some mp ∧ mem wo !! base0 = Some mo ∧
       tcr mp = vp ∧ tcr mo = vo ∧ keeps [TCR] mp mo).
Proof.
  apply (periodic_oneshot_same_but_mode (bound_world quiet_map) 0
           {| hw := base0; irq := 64 |} quiet_map 1000000).
  exists (bound_pstimer 0), 0%nat. repeat split; vm_compute; reflexivity.
Defined.

(** ** From the factory to a running timer *)

Lemma factory_handle_ok (w : world) id c m1 :
  (id < length (timers w))%nat → (id < length (kts w))%nat →
  handle_ok
    (dev (with_kts (<[id := {| hw := vaddr c; irq := to_u32 (cfg_irq c) |}]> (kts w))
            (with_timers (<[id := bound_pstimer id]> (timers w)) w))
         (vaddr c) m1)
    id {| hw := vaddr c; irq := to_u32 (cfg_irq c) |} m1.
Proof.
  intros Ht Hk. exists (bound_pstimer id), id. simpl.
  rewrite !list_lookup_insert_eq by lia. by rewrite lookup_insert_eq.
Qed.

(** X15.  Obtaining a timer and arming it straight away, in either mode
    and with an accepted [ns], succeeds and leaves the block released
    from reset, with the counter at zero, the period registers holding
    the computed tick count, the acknowledge pattern stored, and the
    control register equal to exactly the requested mode bit. *)
Theorem factory_then_arm NTIMERS w id c m ns tcrFlags :
  (id < NTIMERS)%nat →
  length (timers w) = NTIMERS → length (kts w) = NTIMERS →
  mem w !! vaddr c = Some m →
  tcrFlags = TCR_ENAMODE_ONESHOT_MASK ∨ tcrFlags = TCR_ENAMODE_PERIODIC_MASK →
  2 ≤ TIMER_INTERVAL_TICKS ns →
  ∃ w' tr m',
    (timer ← ps_get_timer NTIMERS id (Some c);
     keystone_set_timeo timer ns tcrFlags) w = Some (0, w', tr) ∧
    mem w' !! vaddr c = Some m' ∧
    tcr m' = tcrFlags ∧ tgcr m' = TGCR_TIM_UNRESET_MASK ∧
    cntlo m' = 0 ∧ cnthi m' = 0 ∧
    prdlo m' = TIMER_INTERVAL_TICKS ns ∧ prdhi m' = 0 ∧
    intctlstat m' = INTCTLSTAT_ACK_MASK ∧
    keeps [TCR; TGCR; CNTLO; CNTHI; PRDLO; PRDHI; INTCTLSTAT] m m'.
Proof.
  intros Hid Hts Hks Hm Hf Hge.
  eexists _, _, _.
  rewrite bind_run, (ps_get_timer_run _ _ _ _ _ Hid Hts Hks Hm).
  set (m1 := set_reg INTCTLSTAT _ _).
  rewrite (keystone_set_timeo_run _ id
             {| hw := vaddr c; irq := to_u32 (cfg_irq c) |} m1);
    [|apply factory_handle_ok; lia|done].
  rewrite dev_dev. split; [reflexivity|]. split; [apply mem_dev_eq|].
  destruct (ticks_split ns) as [Hl Hh].
  assert (Hmode : to_u32 (Z.lor 0 (to_u32 tcrFlags)) = tcrFlags)
    by (by destruct Hf as [-> | ->]).
  match goal with |- _ ∧ _ ∧ _ ∧ _ ∧ _ ∧ _ ∧ _ ∧ keeps _ _ ?m' =>
    assert (Hkeep : keeps [TCR; TGCR; CNTLO; CNTHI; PRDLO; PRDHI; INTCTLSTAT] m m')
  end.
  { subst m1.
    repeat (apply keeps_set_reg; [apply list_elem_of_In; simpl; tauto|]).
    apply keeps_refl. }
  subst m1. destruct m. simpl in Hkeep |- *.
  rewrite Hl, Hh, Hmode in Hkeep |- *.
  repeat (split; [reflexivity|]). exact Hkeep.
Qed.

Lemma factory_then_arm_witness :
  ∃ w' tr m',
    (timer ← ps_get_timer 1 0 (Some cfg0);
     keystone_set_timeo timer 1000000 TCR_ENAMODE_PERIODIC_MASK)
      (fresh_world quiet_map) = Some (0, w', tr) ∧
    mem w' !! base0 = Some m' ∧
    tcr m' = TCR_ENAMODE_PERIODIC_MASK ∧ tgcr m' = TGCR_TIM_UNRESET_MASK ∧
    cntlo m' = 0 ∧ cnthi m' = 0 ∧
    prdlo m' = TIMER_INTERVAL_TICKS 1000000 ∧ prdhi m' = 0 ∧
    intctlstat m' = INTCTLSTAT_ACK_MASK ∧
    keeps [TCR; TGCR; CNTLO; CNTHI; PRDLO; PRDHI; INTCTLSTAT] quiet_map m'.
Proof.
  apply (factory_then_arm 1 (fresh_world quiet_map) 0 cfg0 quiet_map
           1000000 TCR_ENAMODE_PERIODIC_MASK).
  - lia.
  - reflexivity.
  - reflexivity.
  - vm_compute. reflexivity.
  - right. reflexivity.
  - vm_compute. discriminate.
Defined.
